(** * calc_ccf: cancer cell fraction histograms

    A shallow embedding of [calc_ccf.py] and the properties of its
    functions.

    Numbers.  The program computes with IEEE doubles through numpy and
    scipy.  Finite values are modelled by rationals with exact arithmetic
    (no rounding, no overflow, one unsigned zero); the special values that
    numpy produces instead of raising, [inf], [-inf] and [nan], are
    modelled explicitly, because several paths of the program divide by a
    sum or by a denominator that can be zero.  Rationals are kept in lowest
    terms ([Qred]) so that a histogram can be evaluated. *)

From Stdlib Require Import ZArith QArith Qround Qpower Qreduction Qabs.
From Stdlib Require Qcanon.
From Stdlib Require Import List Bool Arith Lia Lqa.
Import ListNotations.

Open Scope Q_scope.

(** ** Floating point values *)

Module Float.

Inductive fval : Type :=
| Fin (q : Q)
| PInf
| NInf
| NaN.

(** A finite result, in lowest terms. *)
Definition fin (q : Q) : fval := Fin (Qred q).

Definition Qltb (a b : Q) : bool := negb (Qle_bool b a).

Definition is_fin (x : fval) : bool :=
  match x with Fin _ => true | _ => false end.

Definition is_nan (x : fval) : bool :=
  match x with NaN => true | _ => false end.

Definition fadd (x y : fval) : fval :=
  match x, y with
  | NaN, _ | _, NaN => NaN
  | Fin a, Fin b => fin (a + b)
  | PInf, NInf | NInf, PInf => NaN
  | PInf, _ | _, PInf => PInf
  | NInf, _ | _, NInf => NInf
  end.

Definition fopp (x : fval) : fval :=
  match x with
  | Fin a => fin (- a)
  | PInf => NInf
  | NInf => PInf
  | NaN => NaN
  end.

Definition fsub (x y : fval) : fval := fadd x (fopp y).

(** [inf] with the sign of [a]; [0 * inf] is [nan]. *)
Definition signed_inf (a : Q) : fval :=
  match a ?= 0 with
  | Eq => NaN
  | Gt => PInf
  | Lt => NInf
  end.

Definition fmul (x y : fval) : fval :=
  match x, y with
  | NaN, _ | _, NaN => NaN
  | Fin a, Fin b => fin (a * b)
  | Fin a, PInf | PInf, Fin a => signed_inf a
  | Fin a, NInf | NInf, Fin a => signed_inf (- a)
  | PInf, PInf | NInf, NInf => PInf
  | PInf, NInf | NInf, PInf => NInf
  end.

(** numpy division: no exception; [0/0] is [nan], [a/0] is [inf] with the
    sign of [a], and a finite value over an infinity is zero. *)
Definition fdiv (x y : fval) : fval :=
  match x, y with
  | NaN, _ | _, NaN => NaN
  | Fin a, Fin b =>
      if Qeq_bool b 0 then signed_inf a else fin (a / b)
  | Fin _, PInf | Fin _, NInf => Fin 0
  | PInf, Fin b => if Qltb b 0 then NInf else PInf
  | NInf, Fin b => if Qltb b 0 then PInf else NInf
  | PInf, PInf | PInf, NInf | NInf, PInf | NInf, NInf => NaN
  end.

(** [x < y]; every comparison with [nan] is false. *)
Definition fltb (x y : fval) : bool :=
  match x, y with
  | NaN, _ | _, NaN => false
  | Fin a, Fin b => Qltb a b
  | NInf, NInf => false
  | NInf, _ => true
  | Fin _, PInf => true
  | _, _ => false
  end.

(** Truth value of a float in [if x:]: false for zero only. *)
Definition truthy (x : fval) : bool :=
  match x with
  | Fin q => negb (Qeq_bool q 0)
  | _ => true
  end.

(** [int(x)] on a finite float: truncation toward zero. *)
Definition py_int (q : Q) : Z := Z.quot (Qnum q) (Zpos (Qden q)).

End Float.

Export Float.

(** ** Exceptions *)

Inductive exn : Type :=
| IndexError
| ValueError.

Inductive result (A : Type) : Type :=
| Ok (a : A)
| Raise (e : exn).

Arguments Ok {A} a.
Arguments Raise {A} e.

Definition bind {A B : Type} (r : result A) (k : A -> result B) : result B :=
  match r with
  | Ok a => k a
  | Raise e => Raise e
  end.

Notation "x <- r ;; k" := (bind r (fun x => k))
  (at level 61, r at next level, right associativity).

(** ** numpy arrays *)

Module Np.

Definition array := list fval.

Definition zeros (n : nat) : array := repeat (Fin 0) n.

(** [np.linspace(0, 1, n)]. *)
Definition linspace01 (n : nat) : array :=
  match n with
  | O => []
  | S O => [Fin 0]
  | S (S _) =>
      map (fun i => fin (inject_Z (Z.of_nat i) / inject_Z (Z.of_nat (n - 1))))
          (seq 0 n)
  end.

(** [np.arange(start, stop)] on floats: [ceil(stop - start)] values
    [start, start + 1, ...]. *)
Definition arange (start stop : Q) : list Q :=
  map (fun i => Qred (start + inject_Z (Z.of_nat i)))
      (seq 0 (Z.to_nat (Qceiling (stop - start)))).

(** Builtin [sum(a)]: a left fold from the integer 0. *)
Definition py_sum (a : array) : fval := fold_left fadd a (Fin 0).

Definition mul_scalar (a : array) (s : fval) : array :=
  map (fun x => fmul x s) a.

Definition scalar_mul (s : fval) (a : array) : array :=
  map (fun x => fmul s x) a.

Definition div_scalar (a : array) (s : fval) : array :=
  map (fun x => fdiv x s) a.

Fixpoint add (a b : array) : array :=
  match a, b with
  | x :: a', y :: b' => fadd x y :: add a' b'
  | _, _ => []
  end.

(** [a += b]: [b] has the shape of [a], or one element that is broadcast;
    any other shape raises. *)
Definition iadd (a b : array) : result array :=
  if Nat.eqb (length b) (length a) then Ok (add a b)
  else match b with
       | [y] => Ok (map (fun x => fadd x y) a)
       | _ => Raise ValueError
       end.

Fixpoint argmax_from (l : array) (i best : nat) (bv : fval) : nat :=
  match l with
  | [] => best
  | x :: t =>
      if negb (is_nan bv) && (is_nan x || fltb bv x)
      then argmax_from t (S i) i x
      else argmax_from t (S i) best bv
  end.

(** [np.argmax(a)]: the first index of the maximum, the first [nan] when
    there is one; an empty array raises. *)
Definition argmax (a : array) : result nat :=
  match a with
  | [] => Raise ValueError
  | x :: t => Ok (argmax_from t 1 0 x)
  end.

(** Position of the index [i] in an array of [n] elements: negative
    indices count from the end. *)
Definition wrap_index (i : Z) (n : nat) : Z :=
  if (i <? 0)%Z then (i + Z.of_nat n)%Z else i.

Fixpoint assign_from (k : nat) (v : fval) (a : array) : array :=
  match k, a with
  | _, [] => []
  | O, _ :: t => v :: assign_from O v t
  | S k', x :: t => x :: assign_from k' v t
  end.

(** [a[i:] = v]: a start outside the array is clipped. *)
Definition set_slice_from (i : Z) (v : fval) (a : array) : array :=
  assign_from (Z.to_nat (wrap_index i (length a))) v a.

Fixpoint assign_at (k : nat) (v : fval) (a : array) : array :=
  match k, a with
  | _, [] => []
  | O, _ :: t => v :: t
  | S k', x :: t => x :: assign_at k' v t
  end.

(** [a[i] = v]: an index outside the array raises. *)
Definition set_item (i : Z) (v : fval) (a : array) : result array :=
  let j := wrap_index i (length a) in
  if ((0 <=? j) && (j <? Z.of_nat (length a)))%Z
  then Ok (assign_at (Z.to_nat j) v a)
  else Raise IndexError.

End Np.

(** ** scipy.stats densities with integer shape parameters *)

Module Stats.

Fixpoint zfact (n : nat) : Z :=
  match n with
  | O => 1
  | S m => Z.of_nat n * zfact m
  end.

(** The binomial coefficient [n! / (k! (n-k)!)], for [k <= n]. *)
Definition choose (n k : nat) : Q :=
  inject_Z (zfact n) / (inject_Z (zfact k) * inject_Z (zfact (n - k))).

Definition in_unit (q : Q) : bool := Qle_bool 0 q && Qle_bool q 1.

(** [scipy.stats.binom.pmf(k, n, p)]: [nan] unless [0 <= p <= 1]. *)
Definition binom_pmf (k n : nat) (p : fval) : fval :=
  match p with
  | Fin q =>
      if in_unit q then
        if Nat.leb k n
        then fin (choose n k * q ^ Z.of_nat k * (1 - q) ^ Z.of_nat (n - k))
        else Fin 0
      else NaN
  | _ => NaN
  end.

(** [scipy.stats.beta.pdf(x, a, b)] for integers [a, b >= 1]:
    [x^(a-1) (1-x)^(b-1) / B(a,b)] on the closed unit interval, zero
    outside it, [nan] at [nan]. *)
Definition beta_pdf (a b : nat) (x : fval) : fval :=
  match a, b with
  | S a', S b' =>
      match x with
      | NaN => NaN
      | PInf | NInf => Fin 0
      | Fin q =>
          if in_unit q
          then fin (inject_Z (Z.of_nat (a' + b' + 1)) * choose (a' + b') a'
                    * q ^ Z.of_nat a' * (1 - q) ^ Z.of_nat b')
          else Fin 0
      end
  | _, _ => NaN
  end.

End Stats.

(** ** The program *)

Module CalcCcf.

Import Np Stats.

(** lines 72-81 *)
Definition get_clonal_cns (local_cn : Q) : Q * Q * Q :=
  if Qltb 1 local_cn then
    let clonal_cn := inject_Z (Qfloor local_cn) in
    let subclonal_cn := inject_Z (Qceiling local_cn) in
    let subclonal_frac := Qred (local_cn - clonal_cn) in
    (clonal_cn, subclonal_cn, subclonal_frac)
  else
    let clonal_cn := inject_Z (Qceiling local_cn) in
    let subclonal_cn := inject_Z (Qfloor local_cn) in
    let subclonal_frac := Qred (clonal_cn - local_cn) in
    (clonal_cn, subclonal_cn, subclonal_frac).

(** The expression [total_cn * purity + 2 * (1 - purity)], written out at
    lines 35, 85, 97, 102, 129 and 155. *)
Definition af_denominator (total_cn purity : Q) : fval :=
  fadd (fmul (Fin total_cn) (Fin purity))
       (fmul (Fin 2) (fsub (Fin 1) (Fin purity))).

(** lines 84-86 *)
Definition calc_mult_weight (multiplicity purity total_count : Q)
    (alt_count total_coverage : nat) : fval :=
  let af_mode := fdiv (fmul (Fin multiplicity) (Fin purity))
                      (af_denominator total_count purity) in
  binom_pmf alt_count total_coverage af_mode.

(** Both distribution builders return the pair [(ccf_dist, 0.)] when the
    multiplicity is zero and the array alone otherwise. *)
Inductive dist_ret : Type :=
| Hist (ccf_dist : array)
| HistAndMean (ccf_dist : array) (mean : fval).

(** lines 121-124 and 147-150 *)
Definition zero_mult_dist (grid_size : nat) : result dist_ret :=
  let ccf_dist := zeros grid_size in
  ccf_dist <- set_item 0 (Fin 1) ccf_dist ;;
  Ok (HistAndMean ccf_dist (Fin 0)).

(** lines 126-131 *)
Definition ccf_dist_body (mult total_cn : Q) (alt_cnt ref_cnt : nat)
    (purity : Q) (grid_size : nat) : array :=
  let ccf_bins := linspace01 grid_size in
  let ccf_domain_in_af_space :=
    div_scalar (mul_scalar (mul_scalar ccf_bins (Fin mult)) (Fin purity))
               (af_denominator total_cn purity) in
  let ccf_dist :=
    map (beta_pdf (alt_cnt + 1) (ref_cnt + 1)) ccf_domain_in_af_space in
  div_scalar ccf_dist (py_sum ccf_dist).

(** lines 108-131 *)
Definition ccf_dist_from_params (mult total_cn : Q) (alt_cnt ref_cnt : nat)
    (purity : Q) (grid_size : nat) : result dist_ret :=
  if Qeq_bool mult 0 then zero_mult_dist grid_size
  else Ok (Hist (ccf_dist_body mult total_cn alt_cnt ref_cnt purity grid_size)).

(** lines 152-158 *)
Definition cp_dist_body (mult total_cn : Q) (alt_cnt ref_cnt : nat)
    (purity : Q) (grid_size : nat) : array :=
  let ccf_bins := linspace01 grid_size in
  let cp_domain_in_af_space :=
    div_scalar (mul_scalar ccf_bins (Fin mult))
               (af_denominator total_cn purity) in
  let ccf_dist :=
    map (beta_pdf (alt_cnt + 1) (ref_cnt + 1)) cp_domain_in_af_space in
  div_scalar ccf_dist (py_sum ccf_dist).

(** lines 134-158 *)
Definition cp_dist_from_params (mult total_cn : Q) (alt_cnt ref_cnt : nat)
    (purity : Q) (grid_size : nat) : result dist_ret :=
  if Qeq_bool mult 0 then zero_mult_dist grid_size
  else Ok (Hist (cp_dist_body mult total_cn alt_cnt ref_cnt purity grid_size)).

(** line 92: the first truncated copy *)
Definition subc_ccf_dist1 (subclonal_frac : Q) (ccf_dist_m1 : array) : array :=
  set_slice_from (py_int (subclonal_frac * 100)) (Fin 0) ccf_dist_m1.

(** line 93: the second truncated copy *)
Definition subc_ccf_dist2 (subclonal_frac : Q) (ccf_dist_m1 : array)
    : result array :=
  set_item (py_int ((1 - subclonal_frac) * 100)) (Fin 0) ccf_dist_m1.

(** lines 89-105 *)
Definition update_ccf_hist (subc_ccf_hist : array) (subclonal_frac : Q)
    (ccf_dist_m1 : array) (purity total_cn : Q) (alt_cnt total_cov : nat)
    : result array :=
  let dist1 := subc_ccf_dist1 subclonal_frac ccf_dist_m1 in
  dist2 <- subc_ccf_dist2 subclonal_frac ccf_dist_m1 ;;
  let sum_dist_1 := py_sum dist1 in
  subc_ccf_hist <-
    (if truthy sum_dist_1 then
       let dist1 := div_scalar dist1 sum_dist_1 in
       let af_mode_1 := fdiv (fmul (Fin subclonal_frac) (Fin purity))
                             (af_denominator total_cn purity) in
       iadd subc_ccf_hist
            (mul_scalar dist1 (binom_pmf alt_cnt total_cov af_mode_1))
     else Ok subc_ccf_hist) ;;
  let sum_dist_2 := py_sum dist2 in
  if truthy sum_dist_2 then
    let dist2 := div_scalar dist2 sum_dist_2 in
    let af_mode_2 := fdiv (fmul (fsub (Fin 1) (Fin subclonal_frac)) (Fin purity))
                          (af_denominator total_cn purity) in
    iadd subc_ccf_hist
         (mul_scalar dist2 (binom_pmf alt_cnt total_cov af_mode_2))
  else Ok subc_ccf_hist.

(** One [for mult in np.arange(start, stop): p_clonal += calc_mult_weight(...)]
    loop of lines 40-48. *)
Definition add_mult_weights (p_clonal : fval) (mults : list Q)
    (purity total_cn : Q) (alt_cnt total_cov : nat) : fval :=
  fold_left
    (fun acc mult => fadd acc (calc_mult_weight mult purity total_cn alt_cnt total_cov))
    mults p_clonal.

(** lines 37-48: the variable [p_clonal] of [calc_ccf] *)
Definition calc_p_clonal (local_cn_a1 local_cn_a2 : Q) (alt_cnt ref_cnt : nat)
    (purity : Q) : fval :=
  let '(_, subclonal_cn_a1, subclonal_frac_a1) := get_clonal_cns local_cn_a1 in
  let '(clonal_cn_a2, subclonal_cn_a2, subclonal_frac_a2) :=
    get_clonal_cns local_cn_a2 in
  let total_cov := (alt_cnt + ref_cnt)%nat in
  let total_cn := local_cn_a1 + local_cn_a2 in
  let p_clonal := Fin 0 in
  let p_clonal :=
    add_mult_weights p_clonal (arange 2 (clonal_cn_a2 + 1))
                     purity total_cn alt_cnt total_cov in
  let p_clonal :=
    if truthy (Fin subclonal_frac_a1)
    then add_mult_weights p_clonal (arange (subclonal_frac_a1 + 1) subclonal_cn_a1)
                          purity total_cn alt_cnt total_cov
    else p_clonal in
  if truthy (Fin subclonal_frac_a2)
  then add_mult_weights p_clonal (arange (subclonal_frac_a2 + 1) subclonal_cn_a2)
                        purity total_cn alt_cnt total_cov
  else p_clonal.

(** line 34: the variable [ccf_mode] *)
Definition calc_ccf_mode (ccf_dist_m1 : array) : result fval :=
  k <- argmax ccf_dist_m1 ;;
  Ok (fdiv (Fin (inject_Z (Z.of_nat k))) (Fin 100)).

(** lines 35-36: the variable [p_subclonal] *)
Definition calc_p_subclonal (ccf_mode : fval) (total_cn purity : Q)
    (alt_cnt total_cov : nat) : fval :=
  let af_mode := fdiv (fmul ccf_mode (Fin purity))
                      (af_denominator total_cn purity) in
  binom_pmf alt_cnt total_cov af_mode.

(** lines 51-60: the normalized subclonal branch [subc_ccf_hist] *)
Definition calc_subc_ccf_hist (local_cn_a1 local_cn_a2 : Q)
    (ccf_dist_m1 : array) (p_subclonal : fval) (alt_cnt ref_cnt : nat)
    (purity : Q) (grid_size : nat) : result array :=
  let '(_, _, subclonal_frac_a1) := get_clonal_cns local_cn_a1 in
  let '(_, _, subclonal_frac_a2) := get_clonal_cns local_cn_a2 in
  let total_cov := (alt_cnt + ref_cnt)%nat in
  let total_cn := local_cn_a1 + local_cn_a2 in
  let subc_ccf_hist := zeros grid_size in
  subc_ccf_hist <-
    (if Qle_bool 1 local_cn_a2
     then iadd subc_ccf_hist (mul_scalar ccf_dist_m1 p_subclonal)
     else Ok subc_ccf_hist) ;;
  subc_ccf_hist <-
    (if truthy (Fin subclonal_frac_a1)
     then update_ccf_hist subc_ccf_hist subclonal_frac_a1 ccf_dist_m1
                          purity total_cn alt_cnt total_cov
     else Ok subc_ccf_hist) ;;
  subc_ccf_hist <-
    (if truthy (Fin subclonal_frac_a2)
     then update_ccf_hist subc_ccf_hist subclonal_frac_a2 ccf_dist_m1
                          purity total_cn alt_cnt total_cov
     else Ok subc_ccf_hist) ;;
  Ok (div_scalar subc_ccf_hist (py_sum subc_ccf_hist)).

(** lines 62-64: the clonal branch [clonal_ccf_hist] *)
Definition calc_clonal_ccf_hist (alt_cnt grid_size : nat) : array :=
  let bins := linspace01 grid_size in
  let clonal_ccf_hist := map (beta_pdf (alt_cnt + 1) 1) bins in
  div_scalar clonal_ccf_hist (py_sum clonal_ccf_hist).

(** lines 30-33: the multiplicity-1 histogram.  The builders return a pair
    only for multiplicity 0, so with multiplicity 1 the array is what
    [np.argmax] receives. *)
Definition calc_ccf_dist_m1 (total_cn : Q) (alt_cnt ref_cnt : nat)
    (purity : Q) (grid_size : nat) (cp : bool) : result array :=
  r <- (if cp
        then cp_dist_from_params 1 total_cn alt_cnt ref_cnt purity grid_size
        else ccf_dist_from_params 1 total_cn alt_cnt ref_cnt purity grid_size) ;;
  match r with
  | Hist ccf_dist_m1 => Ok ccf_dist_m1
  | HistAndMean _ _ => Raise ValueError
  end.

(** lines 9-69 *)
Definition calc_ccf (local_cn_a1 local_cn_a2 : Q) (alt_cnt ref_cnt : nat)
    (purity : Q) (grid_size : nat) (cp : bool) : result array :=
  let total_cov := (alt_cnt + ref_cnt)%nat in
  let total_cn := local_cn_a1 + local_cn_a2 in
  ccf_dist_m1 <- calc_ccf_dist_m1 total_cn alt_cnt ref_cnt purity grid_size cp ;;
  ccf_mode <- calc_ccf_mode ccf_dist_m1 ;;
  let p_subclonal := calc_p_subclonal ccf_mode total_cn purity alt_cnt total_cov in
  let p_clonal := calc_p_clonal local_cn_a1 local_cn_a2 alt_cnt ref_cnt purity in
  subc_ccf_hist <- calc_subc_ccf_hist local_cn_a1 local_cn_a2 ccf_dist_m1
                     p_subclonal alt_cnt ref_cnt purity grid_size ;;
  let clonal_ccf_hist := calc_clonal_ccf_hist alt_cnt grid_size in
  let ccf_hist := add (scalar_mul p_subclonal subc_ccf_hist)
                      (scalar_mul p_clonal clonal_ccf_hist) in
  Ok (div_scalar ccf_hist (py_sum ccf_hist)).

End CalcCcf.

Export Np Stats CalcCcf.

(** ** Statements that follow the specification's words *)

Module Spec.

(** A one-hot histogram: 1.0 at index 0 and 0 everywhere else. *)
Definition one_hot (grid_size : nat) : array :=
  match grid_size with
  | O => []
  | S n => Fin 1 :: repeat (Fin 0) n
  end.

(** A bin that holds a real number. *)
Definition finite (x : fval) : Prop := is_fin x = true.

(** A bin that holds a non-negative real number. *)
Definition nonneg (x : fval) : Prop :=
  match x with
  | Fin q => 0 <= q
  | _ => False
  end.

(** A value that is not a negative real number: non-negative, or one of
    the special values. *)
Definition not_negative (x : fval) : Prop :=
  match x with
  | Fin q => 0 <= q
  | _ => True
  end.

(** The real number held by a bin (0 for a special value). *)
Definition value (x : fval) : Q :=
  match x with
  | Fin q => q
  | _ => 0
  end.

(** The sum of the real entries of an array. *)
Fixpoint qsum (a : array) : Q :=
  match a with
  | [] => 0
  | Fin q :: t => q + qsum t
  | _ :: t => qsum t
  end.

(** C1: non-negative in every bin, summing to 1.0 within the tolerance. *)
Definition sums_to_one_within (tol : Q) (h : array) : Prop :=
  exists s : Q, py_sum h = Fin s /\ Qabs (s - 1) <= tol.

Definition normalized_histogram (h : array) : Prop :=
  Forall nonneg h /\ sums_to_one_within (1 # 1000000000) h.

(** The integers [lo, lo + 1, ..., hi]. *)
Definition integers_from_to (lo hi : Z) : list Q :=
  map (fun i => inject_Z (lo + Z.of_nat i)) (seq 0 (Z.to_nat (hi - lo + 1))).

(** The integers strictly between two reals. *)
Definition integers_strictly_between (lo hi : Q) : list Q :=
  integers_from_to (Qfloor lo + 1) (Qceiling hi - 1).

(** C3 in the specification's words: the weights of every integer
    multiplicity from 2 to the major allele's clonal copy number and, for
    each allele with a non-zero subclonal fraction, of every integer
    strictly between the fraction and the subclonal copy number. *)
Definition p_clonal_integer_ranges (local_cn_a1 local_cn_a2 : Q)
    (alt_cnt ref_cnt : nat) (purity : Q) : fval :=
  let '(_, subclonal_cn_a1, subclonal_frac_a1) := get_clonal_cns local_cn_a1 in
  let '(clonal_cn_a2, subclonal_cn_a2, subclonal_frac_a2) :=
    get_clonal_cns local_cn_a2 in
  add_mult_weights (Fin 0)
    (integers_from_to 2 (Qfloor clonal_cn_a2)
     ++ (if truthy (Fin subclonal_frac_a1)
         then integers_strictly_between subclonal_frac_a1 subclonal_cn_a1
         else [])
     ++ (if truthy (Fin subclonal_frac_a2)
         then integers_strictly_between subclonal_frac_a2 subclonal_cn_a2
         else []))
    purity (local_cn_a1 + local_cn_a2) alt_cnt (alt_cnt + ref_cnt).

(** The multiplicities [frac + 1, frac + 2, ..., frac + floor(cn) = cn] of
    an allele whose copy number [cn] is above 1 and not an integer, where
    [frac = cn - floor(cn)]; none for any other copy number. *)
Definition shifted_multiplicities (local_cn : Q) : list Q :=
  if Qeq_bool local_cn (inject_Z (Qfloor local_cn)) then []
  else if Qltb 1 local_cn then
    map (fun k => Qred (local_cn - inject_Z (Qfloor local_cn)
                        + inject_Z (Z.of_nat k)))
        (seq 1 (Z.to_nat (Qfloor local_cn)))
  else [].

(** C5: the CCF value of bin [k] on a grid of [grid_size] bins,
    [k / (grid_size - 1)]. *)
Definition ccf_grid_value (k grid_size : nat) : fval :=
  fdiv (Fin (inject_Z (Z.of_nat k)))
       (Fin (inject_Z (Z.of_nat grid_size) - 1)).

(** C9 in the specification's words: what one truncated copy adds to the
    running histogram. A copy that sums to zero is skipped; any other copy
    is divided by its sum and added with the weight of the Binomial pmf at
    the allele fraction of its boundary ([f] or [1 - f]). *)
Definition add_truncated_copy (hist dist : array) (boundary : Q)
    (purity total_cn : Q) (alt_cnt total_cov : nat) : array :=
  match py_sum dist with
  | Fin s =>
      if Qeq_bool s 0 then hist
      else add hist
             (mul_scalar (div_scalar dist (Fin s))
                (calc_mult_weight boundary purity total_cn alt_cnt total_cov))
  | _ => hist
  end.

(** The allele fractions of the CCF grid at multiplicity 1 in the selected
    mapping mode (lines 129 and 155). *)
Definition m1_domain (cp : bool) (total_cn purity : Q) (grid_size : nat)
    : array :=
  if cp
  then div_scalar (mul_scalar (linspace01 grid_size) (Fin 1))
                  (af_denominator total_cn purity)
  else div_scalar (mul_scalar (mul_scalar (linspace01 grid_size) (Fin 1))
                              (Fin purity))
                  (af_denominator total_cn purity).

(** The constant of the Beta density with shapes [a + 1] and [b + 1],
    [(a + b + 1)! / (a! b!)]. *)
Definition beta_coef (a b : nat) : Q :=
  inject_Z (Z.of_nat (a + b + 1)) * choose (a + b) a.

End Spec.

Export Spec.

(** * Properties *)

(** ** Rational arithmetic in lowest terms *)

Lemma Qltb_lt (a b : Q) : Qltb a b = true <-> a < b.
Proof.
  unfold Qltb. rewrite negb_true_iff, <- not_true_iff_false, Qle_bool_iff.
  split; [apply Qnot_le_lt | apply Qlt_not_le].
Qed.

Lemma Qltb_ge (a b : Q) : Qltb a b = false <-> b <= a.
Proof.
  unfold Qltb. rewrite negb_false_iff. apply Qle_bool_iff.
Qed.

Lemma Qred_inject_Z (z : Z) : Qred (inject_Z z) = inject_Z z.
Proof.
  apply Qcanon.Qred_identity. simpl. apply Z.gcd_1_r.
Qed.

Lemma fin_eq (a b : Q) : a == b -> fin a = fin b.
Proof.
  intros H. unfold fin. f_equal. now apply Qred_complete.
Qed.

Lemma fin_inject_Z (z : Z) : fin (inject_Z z) = Fin (inject_Z z).
Proof.
  unfold fin. now rewrite Qred_inject_Z.
Qed.

(** ** C8: the copy number decomposition *)

Lemma Qceiling_floor_cases (x : Q) :
  (Qceiling x = Qfloor x /\ x == inject_Z (Qfloor x)) \/
  (Qceiling x = Qfloor x + 1)%Z /\ inject_Z (Qfloor x) < x.
Proof.
  pose proof (Qfloor_le x) as Hfl.
  pose proof (Qlt_floor x) as Hlf.
  pose proof (Qle_ceiling x) as Hlc.
  pose proof (Qceiling_lt x) as Hcl.
  pose proof (Qle_floor_ceiling x) as Hfc.
  rewrite <- Zle_Qle in Hfc.
  destruct (Z.eq_dec (Qceiling x) (Qfloor x)) as [E | N].
  - left. split; [exact E |]. rewrite E in Hlc. lra.
  - right.
    assert (Hlt : inject_Z (Qceiling x - 1) < inject_Z (Qfloor x + 1)) by lra.
    rewrite <- Zlt_Qlt in Hlt.
    assert (E : (Qceiling x = Qfloor x + 1)%Z) by lia.
    split; [exact E |].
    rewrite E in Hcl. replace (Qfloor x + 1 - 1)%Z with (Qfloor x) in Hcl by lia.
    exact Hcl.
Qed.

Lemma Qfloor_integer (x : Q) (k : Z) : x == inject_Z k -> Qfloor x = k.
Proof.
  intros H. rewrite (Qfloor_comp _ _ H). apply Qfloor_Z.
Qed.

Lemma Qceiling_integer (x : Q) (k : Z) : x == inject_Z k -> Qceiling x = k.
Proof.
  intros H. rewrite (Qceiling_comp _ _ H). apply Qceiling_Z.
Qed.

(** C8. For every copy number [cn >= 0], [get_clonal_cns] returns a clonal
    and a subclonal copy number that are non-negative integers at most 1
    apart and a subclonal fraction in [0, 1]; the fraction is 0 whenever
    [cn] is an integer. *)
Theorem get_clonal_cns_decomposition (cn : Q) (Hcn : 0 <= cn) :
  exists (c s : Z) (f : Q),
    get_clonal_cns cn = (inject_Z c, inject_Z s, f) /\
    (0 <= c)%Z /\ (0 <= s)%Z /\ (Z.abs (c - s) <= 1)%Z /\
    0 <= f <= 1 /\
    (forall k : Z, cn == inject_Z k -> f == 0).
Proof.
  unfold get_clonal_cns.
  pose proof (Qfloor_le cn) as Hfl.
  pose proof (Qlt_floor cn) as Hlf.
  pose proof (Qle_ceiling cn) as Hlc.
  pose proof (Qceiling_lt cn) as Hcl.
  assert (H0f : (0 <= Qfloor cn)%Z).
  { rewrite <- (Qfloor_Z 0). now apply Qfloor_resp_le. }
  assert (H0c : (0 <= Qceiling cn)%Z).
  { rewrite <- (Qceiling_Z 0). now apply Qceiling_resp_le. }
  assert (Habs : (Z.abs (Qfloor cn - Qceiling cn) <= 1)%Z /\
                 (Z.abs (Qceiling cn - Qfloor cn) <= 1)%Z).
  { destruct (Qceiling_floor_cases cn) as [[E _] | [E _]]; rewrite E; lia. }
  rewrite inject_Z_plus in Hlf.
  unfold Z.sub in Hcl. rewrite inject_Z_plus, inject_Z_opp in Hcl.
  change (inject_Z 1) with 1 in *.
  destruct (Qltb 1 cn) eqn:Hgt.
  - exists (Qfloor cn), (Qceiling cn), (Qred (cn - inject_Z (Qfloor cn))).
    repeat split; try tauto; try lia.
    + rewrite Qred_correct. lra.
    + rewrite Qred_correct. lra.
    + intros k Hk. rewrite Qred_correct, (Qfloor_integer _ _ Hk). lra.
  - exists (Qceiling cn), (Qfloor cn), (Qred (inject_Z (Qceiling cn) - cn)).
    repeat split; try tauto; try lia.
    + rewrite Qred_correct. lra.
    + rewrite Qred_correct. lra.
    + intros k Hk. rewrite Qred_correct, (Qceiling_integer _ _ Hk). lra.
Qed.

(** The decomposition of 2.5: clonal 2, subclonal 3, fraction 0.5. *)
Lemma get_clonal_cns_decomposition_witness :
  exists (c s : Z) (f : Q),
    get_clonal_cns (5 # 2) = (inject_Z c, inject_Z s, f) /\
    (0 <= c)%Z /\ (0 <= s)%Z /\ (Z.abs (c - s) <= 1)%Z /\
    0 <= f <= 1 /\
    (forall k : Z, (5 # 2) == inject_Z k -> f == 0).
Proof.
  apply (get_clonal_cns_decomposition (5 # 2)). unfold Qle; simpl; lia.
Defined.

(** ** Special values *)

Lemma signed_inf_pos (a : Q) : 0 < a -> signed_inf a = PInf.
Proof.
  intros H. unfold signed_inf.
  destruct (Qcompare_spec a 0); [lra | lra | reflexivity].
Qed.

Lemma signed_inf_neg (a : Q) : a < 0 -> signed_inf a = NInf.
Proof.
  intros H. unfold signed_inf.
  destruct (Qcompare_spec a 0); [lra | reflexivity | lra].
Qed.

Lemma signed_inf_zero (a : Q) : a == 0 -> signed_inf a = NaN.
Proof.
  intros H. unfold signed_inf.
  destruct (Qcompare_spec a 0); [reflexivity | lra | lra].
Qed.

Lemma signed_inf_not_fin (a : Q) : is_fin (signed_inf a) = false.
Proof.
  unfold signed_inf. now destruct (a ?= 0).
Qed.

(** ** C6: multiplicity zero *)

Lemma zero_mult_dist_pos (grid_size : nat) :
  (1 <= grid_size)%nat ->
  zero_mult_dist grid_size = Ok (HistAndMean (one_hot grid_size) (Fin 0)).
Proof.
  destruct grid_size as [| n]; [lia | intros _].
  reflexivity.
Qed.

Lemma zero_mult_dist_empty : zero_mult_dist 0 = Raise IndexError.
Proof. reflexivity. Qed.

(** C6, as the code has it. With multiplicity 0 and a grid of at least one
    bin, [ccf_dist_from_params] and [cp_dist_from_params] return the pair
    of the one-hot histogram (1.0 at index 0, 0 elsewhere) and the mean
    0.0, not the histogram alone. *)
Theorem zero_multiplicity_pair (mult total_cn : Q) (alt_cnt ref_cnt : nat)
    (purity : Q) (grid_size : nat) :
  mult == 0 -> (1 <= grid_size)%nat ->
  ccf_dist_from_params mult total_cn alt_cnt ref_cnt purity grid_size
    = Ok (HistAndMean (one_hot grid_size) (Fin 0)) /\
  cp_dist_from_params mult total_cn alt_cnt ref_cnt purity grid_size
    = Ok (HistAndMean (one_hot grid_size) (Fin 0)).
Proof.
  intros Hm Hg.
  unfold ccf_dist_from_params, cp_dist_from_params.
  rewrite (Qeq_eq_bool _ _ Hm).
  split; now apply zero_mult_dist_pos.
Qed.

Lemma zero_multiplicity_pair_witness :
  ccf_dist_from_params 0 2 20 20 1 101
    = Ok (HistAndMean (one_hot 101) (Fin 0)) /\
  cp_dist_from_params 0 2 20 20 1 101
    = Ok (HistAndMean (one_hot 101) (Fin 0)).
Proof.
  apply (zero_multiplicity_pair 0 2 20 20 1 101); [reflexivity | lia].
Defined.

(** The value returned for multiplicity 0 is not the one-hot array. *)
Lemma zero_multiplicity_not_array :
  ccf_dist_from_params 0 2 20 20 1 3 <> Ok (Hist (one_hot 3)) /\
  cp_dist_from_params 0 2 20 20 1 3 <> Ok (Hist (one_hot 3)).
Proof.
  split; vm_compute; discriminate.
Qed.

(** On an empty grid the assignment [ccf_dist[0] = 1.] raises. *)
Lemma zero_multiplicity_empty_grid (total_cn : Q) (alt_cnt ref_cnt : nat)
    (purity : Q) :
  ccf_dist_from_params 0 total_cn alt_cnt ref_cnt purity 0 = Raise IndexError.
Proof. reflexivity. Qed.

(** ** C10: the two mapping modes at purity 1 *)

Lemma fmul_fmul_one (b m : fval) (p : Q) :
  p == 1 -> fmul (fmul b m) (Fin p) = fmul b m.
Proof.
  intros Hp.
  assert (Hpos : signed_inf p = PInf) by (apply signed_inf_pos; lra).
  assert (Hneg : signed_inf (- p) = NInf) by (apply signed_inf_neg; lra).
  assert (Hinf : forall a, fmul (signed_inf a) (Fin p) = signed_inf a).
  { intros a. unfold signed_inf. destruct (a ?= 0); simpl; auto. }
  destruct b as [a | | |], m as [c | | |];
    try (simpl; rewrite ?Hinf, ?Hpos, ?Hneg; reflexivity).
  change (fin (Qred (a * c) * p) = fin (a * c)).
  apply fin_eq. rewrite Qred_correct, Hp. ring.
Qed.

Lemma cp_dist_body_purity_one (mult total_cn : Q) (alt_cnt ref_cnt : nat)
    (purity : Q) (grid_size : nat) :
  purity == 1 ->
  cp_dist_body mult total_cn alt_cnt ref_cnt purity grid_size
  = ccf_dist_body mult total_cn alt_cnt ref_cnt purity grid_size.
Proof.
  intros Hp. unfold cp_dist_body, ccf_dist_body.
  assert (E : mul_scalar (mul_scalar (linspace01 grid_size) (Fin mult)) (Fin purity)
              = mul_scalar (linspace01 grid_size) (Fin mult)).
  { unfold mul_scalar. rewrite map_map. apply map_ext.
    intros b. now apply fmul_fmul_one. }
  now rewrite E.
Qed.

(** C10. At purity 1 the two mapping modes coincide: for every
    multiplicity, total copy number, counts and grid size,
    [cp_dist_from_params] returns what [ccf_dist_from_params] returns. *)
Theorem cp_dist_eq_ccf_dist_at_purity_one (mult total_cn : Q)
    (alt_cnt ref_cnt : nat) (purity : Q) (grid_size : nat) :
  purity == 1 ->
  cp_dist_from_params mult total_cn alt_cnt ref_cnt purity grid_size
  = ccf_dist_from_params mult total_cn alt_cnt ref_cnt purity grid_size.
Proof.
  intros Hp. unfold cp_dist_from_params, ccf_dist_from_params.
  destruct (Qeq_bool mult 0); [reflexivity |].
  now rewrite cp_dist_body_purity_one.
Qed.

Lemma cp_dist_eq_ccf_dist_at_purity_one_witness :
  cp_dist_from_params 1 (7 # 2) 2 3 1 11
  = ccf_dist_from_params 1 (7 # 2) 2 3 1 11.
Proof.
  apply (cp_dist_eq_ccf_dist_at_purity_one 1 (7 # 2) 2 3 1 11). reflexivity.
Defined.

(** ** Arithmetic on special values *)

Ltac fval_cbn :=
  cbn [fadd fsub fopp fmul fdiv fin is_fin is_nan truthy
       finite nonneg not_negative] in *.

Lemma not_negative_signed_inf (a : Q) : not_negative (signed_inf a).
Proof.
  unfold signed_inf. now destruct (a ?= 0).
Qed.

Lemma fadd_not_negative (x y : fval) :
  not_negative x -> not_negative y -> not_negative (fadd x y).
Proof.
  destruct x as [a | | |], y as [b | | |]; fval_cbn; auto.
  intros Ha Hb. rewrite Qred_correct. lra.
Qed.

Lemma fmul_not_negative (x y : fval) :
  not_negative x -> not_negative y -> not_negative (fmul x y).
Proof.
  destruct x as [a | | |], y as [b | | |]; fval_cbn;
    auto using not_negative_signed_inf.
  intros Ha Hb. rewrite Qred_correct. now apply Qmult_le_0_compat.
Qed.

Lemma fdiv_not_negative (x y : fval) :
  not_negative x -> not_negative y -> not_negative (fdiv x y).
Proof.
  destruct x as [a | | |], y as [b | | |]; fval_cbn; auto; try lra.
  - intros Ha Hb. destruct (Qeq_bool b 0) eqn:E.
    + apply not_negative_signed_inf.
    + apply Qeq_bool_neq in E. fval_cbn. rewrite Qred_correct.
      apply Qle_shift_div_l; lra.
  - intros _ _. now destruct (Qltb b 0).
  - intros _ _. now destruct (Qltb b 0).
Qed.

Lemma fadd_finite_inv (x y : fval) :
  finite (fadd x y) -> finite x /\ finite y.
Proof.
  destruct x, y; unfold finite; cbn [fadd fin is_fin]; intros H;
    (discriminate || auto).
Qed.

Lemma fmul_finite_inv (x y : fval) :
  finite (fmul x y) -> finite x /\ finite y.
Proof.
  destruct x, y; unfold finite; cbn [fmul fin is_fin];
    rewrite ?signed_inf_not_fin; intros H; (discriminate || auto).
Qed.

Lemma fdiv_finite_num (x y : fval) : finite (fdiv x y) -> finite x.
Proof.
  destruct x as [a | | |], y as [b | | |]; unfold finite; cbn [fdiv is_fin];
    auto; destruct (Qltb b 0); auto.
Qed.

Lemma fdiv_finite_den (a b : Q) : finite (fdiv (Fin a) (Fin b)) -> ~ b == 0.
Proof.
  unfold finite. cbn [fdiv]. intros H E.
  rewrite (Qeq_eq_bool _ _ E), signed_inf_not_fin in H. discriminate.
Qed.

Lemma finite_nonneg (x : fval) : finite x -> not_negative x -> nonneg x.
Proof.
  destruct x; unfold finite; fval_cbn; auto; discriminate.
Qed.

Lemma finite_inv (x : fval) : finite x -> exists q, x = Fin q.
Proof.
  destruct x as [q | | |]; unfold finite; cbn; try discriminate.
  intros _. now exists q.
Qed.

(** ** Sums of arrays *)

Lemma fold_fadd_finite_inv (l : array) (acc : fval) :
  finite (fold_left fadd l acc) -> finite acc /\ Forall finite l.
Proof.
  revert acc. induction l as [| x t IH]; intros acc H; cbn [fold_left] in H.
  - split; [exact H | constructor].
  - destruct (IH _ H) as [Hacc Ht].
    destruct (fadd_finite_inv _ _ Hacc) as [Ha Hx].
    split; [exact Ha | now constructor].
Qed.

Lemma fold_fadd_not_negative (l : array) (acc : fval) :
  not_negative acc -> Forall not_negative l ->
  not_negative (fold_left fadd l acc).
Proof.
  revert acc. induction l as [| x t IH]; intros acc Hacc Hl; cbn [fold_left].
  - exact Hacc.
  - inversion Hl; subst. apply IH; [now apply fadd_not_negative | assumption].
Qed.

Lemma py_sum_not_negative (l : array) :
  Forall not_negative l -> not_negative (py_sum l).
Proof.
  intros H. apply fold_fadd_not_negative; [cbn; lra | exact H].
Qed.

Lemma fold_fadd_fin (l : array) (a : Q) :
  Forall finite l -> l <> [] ->
  fold_left fadd l (Fin a) = fin (a + qsum l).
Proof.
  revert a. induction l as [| x t IH]; intros a Hl Hne; [congruence |].
  inversion Hl as [| ? ? Hx Ht]; subst.
  destruct (finite_inv _ Hx) as [q ->].
  cbn [fold_left fadd qsum].
  destruct t as [| y t'].
  - cbn [fold_left qsum]. apply fin_eq. ring.
  - unfold fin at 1. rewrite IH; [| assumption | discriminate].
    apply fin_eq. rewrite Qred_correct. ring.
Qed.

Lemma py_sum_fin (l : array) :
  Forall finite l -> exists s, py_sum l = Fin s /\ s == qsum l.
Proof.
  intros Hl. destruct l as [| x t].
  - exists 0. split; reflexivity.
  - exists (Qred (0 + qsum (x :: t))). split.
    + unfold py_sum. rewrite fold_fadd_fin; [reflexivity | assumption | discriminate].
    + rewrite Qred_correct. ring.
Qed.

Lemma div_scalar_finite (l : array) (s : Q) :
  Forall finite l -> ~ s == 0 ->
  Forall finite (div_scalar l (Fin s)) /\
  qsum (div_scalar l (Fin s)) == qsum l / s.
Proof.
  intros Hl Hs. induction Hl as [| x t Hx Ht IH].
  - split; [constructor |]. cbn. field. exact Hs.
  - destruct (finite_inv _ Hx) as [q ->].
    destruct IH as [IH1 IH2].
    cbn [div_scalar map fdiv qsum].
    destruct (Qeq_bool s 0) eqn:E; [apply Qeq_bool_eq in E; contradiction |].
    split.
    + constructor; [reflexivity | exact IH1].
    + cbn [fin qsum]. fold (div_scalar t (Fin s)).
      rewrite IH2, Qred_correct. field. exact Hs.
Qed.

(** Dividing an array of reals by its non-zero sum gives an array that
    sums to 1. *)
Lemma normalize_sums_to_one (l : array) (s : Q) :
  Forall finite l -> py_sum l = Fin s -> ~ s == 0 ->
  py_sum (div_scalar l (Fin s)) = Fin 1.
Proof.
  intros Hl Hsum Hs.
  destruct (py_sum_fin l Hl) as [s' [E Hs']].
  rewrite Hsum in E. injection E as <-.
  destruct (div_scalar_finite l s Hl Hs) as [Hfin Hq].
  assert (Hne : div_scalar l (Fin s) <> []).
  { destruct l; [| discriminate]. cbn in Hs'. contradiction. }
  unfold py_sum. rewrite fold_fadd_fin by assumption.
  change (Fin 1) with (fin 1). apply fin_eq.
  rewrite Hq, <- Hs'. field. exact Hs.
Qed.

(** When every bin of [l / sum(l)] is a real, the bins of [l] are reals
    and their sum is not zero. *)
Lemma normalize_finite_inv (l : array) :
  l <> [] -> Forall finite (div_scalar l (py_sum l)) ->
  Forall finite l /\ exists s, py_sum l = Fin s /\ ~ s == 0.
Proof.
  intros Hne H.
  assert (Hl : Forall finite l).
  { unfold div_scalar in H. rewrite Forall_map in H.
    eapply Forall_impl; [| exact H]. intros x. apply fdiv_finite_num. }
  split; [exact Hl |].
  destruct (py_sum_fin l Hl) as [s [E _]].
  exists s. split; [exact E |].
  destruct l as [| x t]; [congruence |].
  inversion Hl as [| ? ? Hx _]; subst.
  destruct (finite_inv _ Hx) as [q ->].
  rewrite E in H. inversion H as [| ? ? Hd _]; subst.
  now apply fdiv_finite_den in Hd.
Qed.

(** ** The densities *)

Lemma zfact_pos (n : nat) : (0 < zfact n)%Z.
Proof.
  induction n as [| n IH]; [reflexivity |].
  cbn [zfact]. apply Z.mul_pos_pos; [lia | exact IH].
Qed.

Lemma choose_pos (n k : nat) : 0 < choose n k.
Proof.
  unfold choose.
  assert (Hn : 0 < inject_Z (zfact n)).
  { rewrite <- (Zlt_Qlt 0). apply zfact_pos. }
  assert (Hk : 0 < inject_Z (zfact k)).
  { rewrite <- (Zlt_Qlt 0). apply zfact_pos. }
  assert (Hnk : 0 < inject_Z (zfact (n - k))).
  { rewrite <- (Zlt_Qlt 0). apply zfact_pos. }
  apply Qlt_shift_div_l.
  - apply Qmult_lt_0_compat; assumption.
  - lra.
Qed.

Lemma in_unit_spec (q : Q) : in_unit q = true <-> 0 <= q <= 1.
Proof.
  unfold in_unit. rewrite andb_true_iff, !Qle_bool_iff. tauto.
Qed.

Lemma binom_term_nonneg (c q : Q) (i j : nat) :
  0 <= c -> 0 <= q <= 1 -> 0 <= c * q ^ Z.of_nat i * (1 - q) ^ Z.of_nat j.
Proof.
  intros Hc [H0 H1].
  apply Qmult_le_0_compat; [apply Qmult_le_0_compat |]; try assumption.
  - now apply Qpower_0_le.
  - apply Qpower_0_le. lra.
Qed.

Lemma binom_pmf_not_negative (k n : nat) (p : fval) :
  not_negative (binom_pmf k n p).
Proof.
  unfold binom_pmf. destruct p as [q | | |]; try exact I.
  destruct (in_unit q) eqn:Hq; [| exact I].
  apply in_unit_spec in Hq.
  destruct (Nat.leb k n); [| cbn; lra].
  cbn [fin not_negative]. rewrite Qred_correct.
  apply binom_term_nonneg; [| exact Hq].
  apply Qlt_le_weak, choose_pos.
Qed.

Lemma beta_pdf_not_negative (a b : nat) (x : fval) :
  not_negative (beta_pdf a b x).
Proof.
  unfold beta_pdf. destruct a as [| a']; [exact I |].
  destruct b as [| b']; [exact I |].
  destruct x as [q | | |]; try exact I; try (cbn; lra).
  destruct (in_unit q) eqn:Hq; [| cbn; lra].
  apply in_unit_spec in Hq.
  cbn [fin not_negative]. rewrite Qred_correct.
  apply binom_term_nonneg; [| exact Hq].
  apply Qmult_le_0_compat.
  - rewrite <- (Zle_Qle 0). lia.
  - apply Qlt_le_weak, choose_pos.
Qed.

(** ** Shapes and signs of arrays *)

Lemma zeros_length (n : nat) : length (zeros n) = n.
Proof. apply repeat_length. Qed.

Lemma zeros_not_negative (n : nat) : Forall not_negative (zeros n).
Proof.
  unfold zeros. induction n; cbn [repeat]; constructor; [cbn; lra | assumption].
Qed.

Lemma linspace01_length (n : nat) : length (linspace01 n) = n.
Proof.
  destruct n as [| [| n]]; [reflexivity | reflexivity |].
  unfold linspace01. now rewrite length_map, length_seq.
Qed.

Lemma mul_scalar_length (a : array) (s : fval) :
  length (mul_scalar a s) = length a.
Proof. apply length_map. Qed.

Lemma scalar_mul_length (s : fval) (a : array) :
  length (scalar_mul s a) = length a.
Proof. apply length_map. Qed.

Lemma div_scalar_length (a : array) (s : fval) :
  length (div_scalar a s) = length a.
Proof. apply length_map. Qed.

Lemma mul_scalar_not_negative (a : array) (s : fval) :
  Forall not_negative a -> not_negative s ->
  Forall not_negative (mul_scalar a s).
Proof.
  intros Ha Hs. unfold mul_scalar. rewrite Forall_map.
  eapply Forall_impl; [| exact Ha]. intros x Hx. now apply fmul_not_negative.
Qed.

Lemma scalar_mul_not_negative (s : fval) (a : array) :
  not_negative s -> Forall not_negative a ->
  Forall not_negative (scalar_mul s a).
Proof.
  intros Hs Ha. unfold scalar_mul. rewrite Forall_map.
  eapply Forall_impl; [| exact Ha]. intros x Hx. now apply fmul_not_negative.
Qed.

Lemma div_scalar_not_negative (a : array) (s : fval) :
  Forall not_negative a -> not_negative s ->
  Forall not_negative (div_scalar a s).
Proof.
  intros Ha Hs. unfold div_scalar. rewrite Forall_map.
  eapply Forall_impl; [| exact Ha]. intros x Hx. now apply fdiv_not_negative.
Qed.

(** [a / sum(a)] keeps the sign of the bins. *)
Lemma normalize_not_negative (a : array) :
  Forall not_negative a -> Forall not_negative (div_scalar a (py_sum a)).
Proof.
  intros Ha. apply div_scalar_not_negative; [exact Ha |].
  now apply py_sum_not_negative.
Qed.

Lemma add_length (a b : array) :
  length a = length b -> length (add a b) = length a.
Proof.
  revert b. induction a as [| x a IH]; intros [| y b] H; cbn in *; try lia.
  f_equal. apply IH. lia.
Qed.

Lemma add_not_negative (a b : array) :
  Forall not_negative a -> Forall not_negative b ->
  Forall not_negative (add a b).
Proof.
  intros Ha. revert b. induction Ha as [| x a Hx Ha IH]; intros b Hb.
  - constructor.
  - destruct Hb as [| y b Hy Hb]; cbn [add]; constructor.
    + now apply fadd_not_negative.
    + now apply IH.
Qed.

Lemma iadd_ok (a b c : array) :
  iadd a b = Ok c -> length c = length a.
Proof.
  unfold iadd. destruct (Nat.eqb (length b) (length a)) eqn:E.
  - apply Nat.eqb_eq in E. intros [= <-]. now apply add_length.
  - destruct b as [| y [| z b]]; try discriminate.
    intros [= <-]. apply length_map.
Qed.

Lemma iadd_same_length (a b : array) :
  length b = length a -> iadd a b = Ok (add a b).
Proof.
  intros E. unfold iadd. now rewrite E, Nat.eqb_refl.
Qed.

Lemma iadd_not_negative (a b c : array) :
  iadd a b = Ok c -> Forall not_negative a -> Forall not_negative b ->
  Forall not_negative c.
Proof.
  unfold iadd. intros H Ha Hb.
  destruct (Nat.eqb (length b) (length a)).
  - injection H as <-. now apply add_not_negative.
  - destruct b as [| y [| z b]]; try discriminate.
    injection H as <-. rewrite Forall_map.
    inversion Hb; subst.
    eapply Forall_impl; [| exact Ha]. intros x Hx. now apply fadd_not_negative.
Qed.

Lemma assign_from_length (k : nat) (v : fval) (a : array) :
  length (assign_from k v a) = length a.
Proof.
  revert k. induction a as [| x a IH]; intros [| k]; cbn; auto.
Qed.

Lemma assign_at_length (k : nat) (v : fval) (a : array) :
  length (assign_at k v a) = length a.
Proof.
  revert k. induction a as [| x a IH]; intros [| k]; cbn; auto.
Qed.

Lemma assign_from_Forall (P : fval -> Prop) (k : nat) (v : fval) (a : array) :
  P v -> Forall P a -> Forall P (assign_from k v a).
Proof.
  intros Hv Ha. revert k. induction Ha as [| x a Hx Ha IH]; intros [| k];
    cbn [assign_from]; constructor; auto.
Qed.

Lemma assign_at_Forall (P : fval -> Prop) (k : nat) (v : fval) (a : array) :
  P v -> Forall P a -> Forall P (assign_at k v a).
Proof.
  intros Hv Ha. revert k. induction Ha as [| x a Hx Ha IH]; intros [| k];
    cbn [assign_at]; constructor; auto.
Qed.

Lemma set_item_ok (i : Z) (v : fval) (a c : array) :
  set_item i v a = Ok c ->
  c = assign_at (Z.to_nat (wrap_index i (length a))) v a.
Proof.
  unfold set_item.
  destruct ((0 <=? _) && _)%Z; [| discriminate]. now intros [= <-].
Qed.

(** ** Invariants of the program's histograms *)

Lemma subc_ccf_dist1_shape (f : Q) (m1 : array) :
  length (subc_ccf_dist1 f m1) = length m1 /\
  (Forall not_negative m1 -> Forall not_negative (subc_ccf_dist1 f m1)) /\
  (Forall finite m1 -> Forall finite (subc_ccf_dist1 f m1)).
Proof.
  unfold subc_ccf_dist1, set_slice_from. split; [apply assign_from_length |].
  split; intros H; apply assign_from_Forall; try assumption.
  - cbn; lra.
  - reflexivity.
Qed.

Lemma subc_ccf_dist2_shape (f : Q) (m1 d2 : array) :
  subc_ccf_dist2 f m1 = Ok d2 ->
  length d2 = length m1 /\
  (Forall not_negative m1 -> Forall not_negative d2) /\
  (Forall finite m1 -> Forall finite d2).
Proof.
  unfold subc_ccf_dist2. intros H. apply set_item_ok in H. subst d2.
  split; [apply assign_at_length |].
  split; intros H; apply assign_at_Forall; try assumption.
  - cbn; lra.
  - reflexivity.
Qed.

(** One guarded branch of [update_ccf_hist] (lines 94-98 and 99-103). *)
Lemma update_branch_shape (hist dist : array) (w : fval) (c : array) :
  (if truthy (py_sum dist)
   then iadd hist (mul_scalar (div_scalar dist (py_sum dist)) w)
   else Ok hist) = Ok c ->
  length c = length hist /\
  (Forall not_negative hist -> Forall not_negative dist -> not_negative w ->
   Forall not_negative c).
Proof.
  destruct (truthy (py_sum dist)).
  - intros H. split; [now apply iadd_ok in H |].
    intros Hh Hd Hw. eapply iadd_not_negative; [exact H | exact Hh |].
    apply mul_scalar_not_negative; [| exact Hw].
    now apply normalize_not_negative.
  - intros [= <-]. auto.
Qed.

Lemma update_ccf_hist_shape (hist : array) (f : Q) (m1 : array)
    (purity total_cn : Q) (alt_cnt total_cov : nat) (c : array) :
  update_ccf_hist hist f m1 purity total_cn alt_cnt total_cov = Ok c ->
  length c = length hist /\
  (Forall not_negative hist -> Forall not_negative m1 -> Forall not_negative c).
Proof.
  unfold update_ccf_hist.
  destruct (subc_ccf_dist2 f m1) as [d2 |] eqn:E2; cbn [bind]; [| discriminate].
  destruct (subc_ccf_dist2_shape _ _ _ E2) as [_ [Hd2 _]].
  destruct (subc_ccf_dist1_shape f m1) as [_ [Hd1 _]].
  match goal with
  | |- bind ?r _ = _ -> _ => destruct r as [h1 |] eqn:E1; cbn [bind]; [| discriminate]
  end.
  intros H.
  apply update_branch_shape in E1. destruct E1 as [L1 N1].
  apply update_branch_shape in H. destruct H as [L2 N2].
  split; [congruence |].
  intros Hh Hm. apply N2; auto using binom_pmf_not_negative.
Qed.

Lemma dist_body_shape (dom : array) (a b : nat) :
  let raw := map (beta_pdf a b) dom in
  length (div_scalar raw (py_sum raw)) = length dom /\
  Forall not_negative (div_scalar raw (py_sum raw)).
Proof.
  intros raw. split.
  - unfold raw. now rewrite div_scalar_length, length_map.
  - apply normalize_not_negative. unfold raw. rewrite Forall_map.
    apply Forall_forall. intros x _. apply beta_pdf_not_negative.
Qed.

Lemma calc_ccf_dist_m1_shape (total_cn : Q) (alt_cnt ref_cnt : nat)
    (purity : Q) (grid_size : nat) (cp : bool) (m1 : array) :
  calc_ccf_dist_m1 total_cn alt_cnt ref_cnt purity grid_size cp = Ok m1 ->
  length m1 = grid_size /\ Forall not_negative m1.
Proof.
  unfold calc_ccf_dist_m1, cp_dist_from_params, ccf_dist_from_params.
  change (Qeq_bool 1 0) with false.
  destruct cp; cbn [bind]; intros [= <-].
  - unfold cp_dist_body.
    destruct (dist_body_shape
      (div_scalar (mul_scalar (linspace01 grid_size) (Fin 1))
                  (af_denominator total_cn purity))
      (alt_cnt + 1) (ref_cnt + 1)) as [L N].
    split; [| exact N].
    now rewrite L, div_scalar_length, mul_scalar_length, linspace01_length.
  - unfold ccf_dist_body.
    destruct (dist_body_shape
      (div_scalar (mul_scalar (mul_scalar (linspace01 grid_size) (Fin 1)) (Fin purity))
                  (af_denominator total_cn purity))
      (alt_cnt + 1) (ref_cnt + 1)) as [L N].
    split; [| exact N].
    now rewrite L, div_scalar_length, !mul_scalar_length, linspace01_length.
Qed.

Lemma calc_clonal_ccf_hist_shape (alt_cnt grid_size : nat) :
  length (calc_clonal_ccf_hist alt_cnt grid_size) = grid_size /\
  Forall not_negative (calc_clonal_ccf_hist alt_cnt grid_size).
Proof.
  unfold calc_clonal_ccf_hist.
  destruct (dist_body_shape (linspace01 grid_size) (alt_cnt + 1) 1) as [L N].
  split; [| exact N]. now rewrite L, linspace01_length.
Qed.

Lemma add_mult_weights_not_negative (p : fval) (mults : list Q)
    (purity total_cn : Q) (alt_cnt total_cov : nat) :
  not_negative p ->
  not_negative (add_mult_weights p mults purity total_cn alt_cnt total_cov).
Proof.
  unfold add_mult_weights. revert p.
  induction mults as [| m t IH]; intros p Hp; cbn [fold_left]; [exact Hp |].
  apply IH. apply fadd_not_negative; [exact Hp |].
  apply binom_pmf_not_negative.
Qed.

Lemma calc_p_clonal_not_negative (local_cn_a1 local_cn_a2 : Q)
    (alt_cnt ref_cnt : nat) (purity : Q) :
  not_negative (calc_p_clonal local_cn_a1 local_cn_a2 alt_cnt ref_cnt purity).
Proof.
  unfold calc_p_clonal.
  destruct (get_clonal_cns local_cn_a1) as [[c1 s1] f1].
  destruct (get_clonal_cns local_cn_a2) as [[c2 s2] f2].
  assert (H0 : not_negative (Fin 0)) by (cbn; lra).
  destruct (truthy (Fin f1)), (truthy (Fin f2));
    repeat apply add_mult_weights_not_negative; exact H0.
Qed.

Lemma calc_subc_ccf_hist_shape (local_cn_a1 local_cn_a2 : Q) (m1 : array)
    (p_subclonal : fval) (alt_cnt ref_cnt : nat) (purity : Q)
    (grid_size : nat) (subc : array) :
  calc_subc_ccf_hist local_cn_a1 local_cn_a2 m1 p_subclonal
                     alt_cnt ref_cnt purity grid_size = Ok subc ->
  length subc = grid_size /\
  (Forall not_negative m1 -> not_negative p_subclonal ->
   Forall not_negative subc).
Proof.
  unfold calc_subc_ccf_hist.
  destruct (get_clonal_cns local_cn_a1) as [[c1 s1] f1].
  destruct (get_clonal_cns local_cn_a2) as [[c2 s2] f2].
  match goal with
  | |- bind ?r _ = _ -> _ => destruct r as [h0 |] eqn:E0; cbn [bind]; [| discriminate]
  end.
  match goal with
  | |- bind ?r _ = _ -> _ => destruct r as [h1 |] eqn:E1; cbn [bind]; [| discriminate]
  end.
  match goal with
  | |- bind ?r _ = _ -> _ => destruct r as [h2 |] eqn:E2; cbn [bind]; [| discriminate]
  end.
  intros [= <-].
  assert (S0 : length h0 = grid_size /\
               (Forall not_negative m1 -> not_negative p_subclonal ->
                Forall not_negative h0)).
  { destruct (Qle_bool 1 local_cn_a2).
    - split.
      + apply iadd_ok in E0. now rewrite E0, zeros_length.
      + intros Hm Hp. eapply iadd_not_negative; [exact E0 | |].
        * apply zeros_not_negative.
        * now apply mul_scalar_not_negative.
    - injection E0 as <-. split; [apply zeros_length |].
      intros _ _. apply zeros_not_negative. }
  destruct S0 as [L0 N0].
  assert (S1 : length h1 = grid_size /\
               (Forall not_negative m1 -> not_negative p_subclonal ->
                Forall not_negative h1)).
  { destruct (truthy (Fin f1)).
    - apply update_ccf_hist_shape in E1. destruct E1 as [L N].
      split; [congruence | auto].
    - injection E1 as <-. auto. }
  destruct S1 as [L1 N1].
  assert (S2 : length h2 = grid_size /\
               (Forall not_negative m1 -> not_negative p_subclonal ->
                Forall not_negative h2)).
  { destruct (truthy (Fin f2)).
    - apply update_ccf_hist_shape in E2. destruct E2 as [L N].
      split; [congruence | auto].
    - injection E2 as <-. auto. }
  destruct S2 as [L2 N2].
  split; [now rewrite div_scalar_length |].
  intros Hm Hp. apply normalize_not_negative. auto.
Qed.

Lemma argmax_ok (a : array) (k : nat) : argmax a = Ok k -> a <> [].
Proof.
  destruct a; [discriminate | discriminate].
Qed.

(** ** C1: normalization of the returned histogram *)

Lemma Forall_finite_nonneg (h : array) :
  Forall finite h -> Forall not_negative h -> Forall nonneg h.
Proof.
  intros Hf. induction Hf as [| x t Hx Ht IH]; intros Hn; constructor.
  - inversion Hn; subst. now apply finite_nonneg.
  - inversion Hn; subst. now apply IH.
Qed.

Lemma sums_to_one_exact (h : array) :
  Forall nonneg h -> py_sum h = Fin 1 -> normalized_histogram h.
Proof.
  intros Hn Hs. split; [exact Hn |].
  exists 1. split; [exact Hs |]. vm_compute. discriminate.
Qed.

(** Whenever [calc_ccf] returns a histogram whose bins are all real
    numbers, every bin is non-negative and the bins sum to 1. *)
Lemma calc_ccf_finite_normalized (local_cn_a1 local_cn_a2 : Q)
    (alt_cnt ref_cnt : nat) (purity : Q) (grid_size : nat) (cp : bool)
    (h : array) :
  calc_ccf local_cn_a1 local_cn_a2 alt_cnt ref_cnt purity grid_size cp = Ok h ->
  Forall finite h ->
  Forall nonneg h /\ py_sum h = Fin 1 /\ normalized_histogram h.
Proof.
  unfold calc_ccf.
  destruct (calc_ccf_dist_m1 _ _ _ _ _ _) as [m1 |] eqn:Em1;
    cbn [bind]; [| discriminate].
  destruct (calc_ccf_mode m1) as [ccf_mode |] eqn:Emode;
    cbn [bind]; [| discriminate].
  destruct (calc_subc_ccf_hist _ _ _ _ _ _ _ _) as [subc |] eqn:Esubc;
    cbn [bind]; [| discriminate].
  intros [= <-] Hfin.
  destruct (calc_ccf_dist_m1_shape _ _ _ _ _ _ _ Em1) as [Lm1 Nm1].
  destruct (calc_subc_ccf_hist_shape _ _ _ _ _ _ _ _ _ Esubc) as [Ls Ns].
  destruct (calc_clonal_ccf_hist_shape alt_cnt grid_size) as [Lc Nc].
  set (p_subclonal := calc_p_subclonal ccf_mode (local_cn_a1 + local_cn_a2)
                        purity alt_cnt (alt_cnt + ref_cnt)) in *.
  set (p_clonal := calc_p_clonal local_cn_a1 local_cn_a2 alt_cnt ref_cnt purity) in *.
  set (raw := add (scalar_mul p_subclonal subc)
                  (scalar_mul p_clonal (calc_clonal_ccf_hist alt_cnt grid_size))) in *.
  assert (Hp : not_negative p_subclonal) by apply binom_pmf_not_negative.
  assert (Hraw : Forall not_negative raw).
  { apply add_not_negative; apply scalar_mul_not_negative; auto.
    apply calc_p_clonal_not_negative. }
  assert (Hne : raw <> []).
  { assert (Hg : grid_size <> 0%nat).
    { unfold calc_ccf_mode in Emode.
      destruct (argmax m1) as [k |] eqn:Ek; [| discriminate].
      apply argmax_ok in Ek. destruct m1; [congruence | cbn in Lm1; lia]. }
    assert (L : length raw = grid_size).
    { unfold raw. rewrite add_length; rewrite !scalar_mul_length; congruence. }
    destruct raw; [cbn in L; lia | discriminate]. }
  destruct (normalize_finite_inv raw Hne Hfin) as [Hrf [s [Es Hs]]].
  assert (Hnn : Forall nonneg (div_scalar raw (py_sum raw))).
  { apply Forall_finite_nonneg; [exact Hfin |].
    now apply normalize_not_negative. }
  assert (Hsum : py_sum (div_scalar raw (py_sum raw)) = Fin 1).
  { rewrite Es. now apply normalize_sums_to_one. }
  split; [exact Hnn |]. split; [exact Hsum |].
  now apply sums_to_one_exact.
Qed.

(** Both copy numbers zero at purity 0.5 is a valid input; the subclonal
    branch is all zeros there and its normalization gives [nan]. *)
Lemma calc_ccf_not_normalized :
  calc_ccf 0 0 1 1 (1 # 2) 3 false = Ok [NaN; NaN; NaN] /\
  ~ (exists h : array,
       calc_ccf 0 0 1 1 (1 # 2) 3 false = Ok h /\ normalized_histogram h).
Proof.
  assert (E : calc_ccf 0 0 1 1 (1 # 2) 3 false = Ok [NaN; NaN; NaN])
    by (vm_compute; reflexivity).
  split; [exact E |].
  intros [h [Eh [Hn _]]]. rewrite E in Eh. injection Eh as <-.
  inversion Hn as [| x t Hx _]. exact Hx.
Qed.

(** ** C7: zero total copy number at purity 1 *)

Lemma af_denominator_fin (total_cn purity : Q) :
  exists d : Q,
    af_denominator total_cn purity = Fin d /\
    d == total_cn * purity + 2 * (1 - purity).
Proof.
  unfold af_denominator, fsub. cbn [fopp fadd fmul fin].
  eexists. split; [reflexivity |].
  rewrite !Qred_correct. ring.
Qed.

Lemma binom_pmf_not_finite (k n : nat) (p : fval) :
  is_fin p = false -> binom_pmf k n p = NaN.
Proof.
  destruct p; cbn; [discriminate | reflexivity ..].
Qed.

Lemma fdiv_by_zero_not_finite (x : fval) (d : Q) :
  d == 0 -> is_fin (fdiv x (Fin d)) = false.
Proof.
  intros Hd. destruct x as [a | | |]; cbn [fdiv].
  - rewrite (Qeq_eq_bool _ _ Hd). apply signed_inf_not_fin.
  - now destruct (Qltb d 0).
  - now destruct (Qltb d 0).
  - reflexivity.
Qed.

(** The fraction of an integer copy number is zero, so the subclonal
    branches are not taken. *)
Lemma get_clonal_cns_integer (cn : Q) (k : Z) :
  cn == inject_Z k -> truthy (Fin (snd (get_clonal_cns cn))) = false.
Proof.
  intros Hk. unfold get_clonal_cns.
  destruct (Qltb 1 cn); cbn [snd truthy]; rewrite negb_false_iff;
    apply Qeq_eq_bool; rewrite Qred_correct.
  - rewrite (Qfloor_integer _ _ Hk). lra.
  - rewrite (Qceiling_integer _ _ Hk). lra.
Qed.

Lemma calc_ccf_dist_m1_total (total_cn : Q) (alt_cnt ref_cnt : nat)
    (purity : Q) (grid_size : nat) (cp : bool) :
  exists m1 : array,
    calc_ccf_dist_m1 total_cn alt_cnt ref_cnt purity grid_size cp = Ok m1.
Proof.
  unfold calc_ccf_dist_m1, cp_dist_from_params, ccf_dist_from_params.
  change (Qeq_bool 1 0) with false.
  destruct cp; cbn [bind]; eexists; reflexivity.
Qed.

Lemma calc_ccf_mode_fin (m1 : array) :
  m1 <> [] -> exists q : Q, calc_ccf_mode m1 = Ok (Fin q).
Proof.
  destruct m1 as [| x t]; [congruence | intros _].
  unfold calc_ccf_mode, argmax. cbn [bind fdiv].
  change (Qeq_bool 100 0) with false. cbn [fin].
  eexists. reflexivity.
Qed.

Lemma add_nan_l (a b : array) :
  length a = length b ->
  add (scalar_mul NaN a) b = repeat NaN (length a).
Proof.
  revert b. induction a as [| x a IH]; intros [| y b] H; cbn in *; try lia;
    [reflexivity |].
  f_equal. apply IH. lia.
Qed.

Lemma div_scalar_nan (n : nat) (s : fval) :
  div_scalar (repeat NaN n) s = repeat NaN n.
Proof.
  induction n as [| n IH]; [reflexivity |].
  cbn [repeat div_scalar map fdiv]. f_equal. exact IH.
Qed.

(** A subclonal likelihood that is [nan] makes every returned bin [nan]. *)
Lemma calc_ccf_nan_p_subclonal (subc clonal : array) (p_clonal : fval) (n : nat) :
  length subc = n -> length clonal = n ->
  let ccf_hist := add (scalar_mul NaN subc) (scalar_mul p_clonal clonal) in
  div_scalar ccf_hist (py_sum ccf_hist) = repeat NaN n.
Proof.
  intros Ls Lc ccf_hist. unfold ccf_hist.
  rewrite add_nan_l by (rewrite scalar_mul_length; congruence).
  rewrite Ls. apply div_scalar_nan.
Qed.

(** The guard of lines 95 and 100: a truncated copy whose sum is zero is
    not divided and adds nothing. *)
Lemma update_ccf_hist_zero_sums (hist : array) (f : Q) (m1 d2 : array)
    (purity total_cn : Q) (alt_cnt total_cov : nat) :
  subc_ccf_dist2 f m1 = Ok d2 ->
  truthy (py_sum (subc_ccf_dist1 f m1)) = false ->
  truthy (py_sum d2) = false ->
  update_ccf_hist hist f m1 purity total_cn alt_cnt total_cov = Ok hist.
Proof.
  intros E2 T1 T2. unfold update_ccf_hist.
  rewrite E2. cbn [bind]. rewrite T1. cbn [bind]. now rewrite T2.
Qed.

(** C7, as the code has it. With both local copy numbers zero at purity 1
    and a grid of at least one bin, [calc_ccf] raises no error: it returns
    [grid_size] bins that are all [nan]. The sums that the code does guard
    are those of the truncated copies in [update_ccf_hist]: when both are
    zero the running histogram comes back unchanged. *)
Theorem calc_ccf_zero_cn_full_purity (local_cn_a1 local_cn_a2 : Q)
    (alt_cnt ref_cnt : nat) (purity : Q) (grid_size : nat) (cp : bool) :
  local_cn_a1 == 0 -> local_cn_a2 == 0 -> purity == 1 ->
  (1 <= grid_size)%nat ->
  calc_ccf local_cn_a1 local_cn_a2 alt_cnt ref_cnt purity grid_size cp
    = Ok (repeat NaN grid_size) /\
  (forall (hist m1 d2 : array) (f total_cn : Q) (total_cov : nat),
      subc_ccf_dist2 f m1 = Ok d2 ->
      truthy (py_sum (subc_ccf_dist1 f m1)) = false ->
      truthy (py_sum d2) = false ->
      update_ccf_hist hist f m1 purity total_cn alt_cnt total_cov = Ok hist).
Proof.
  intros H1 H2 Hp Hg.
  split; [| intros; now apply update_ccf_hist_zero_sums with (d2 := d2)].
  unfold calc_ccf.
  destruct (calc_ccf_dist_m1_total (local_cn_a1 + local_cn_a2) alt_cnt ref_cnt
              purity grid_size cp) as [m1 Em1].
  rewrite Em1. cbn [bind].
  destruct (calc_ccf_dist_m1_shape _ _ _ _ _ _ _ Em1) as [Lm1 _].
  assert (Hne : m1 <> []) by (destruct m1; [cbn in Lm1; lia | discriminate]).
  destruct (calc_ccf_mode_fin m1 Hne) as [mode Emode].
  rewrite Emode. cbn [bind].
  assert (Hsub : calc_p_subclonal (Fin mode) (local_cn_a1 + local_cn_a2) purity
                   alt_cnt (alt_cnt + ref_cnt) = NaN).
  { unfold calc_p_subclonal.
    destruct (af_denominator_fin (local_cn_a1 + local_cn_a2) purity) as [d [-> Hd]].
    apply binom_pmf_not_finite, fdiv_by_zero_not_finite.
    rewrite Hd, H1, H2, Hp. ring. }
  rewrite Hsub.
  assert (Esubc : exists subc,
             calc_subc_ccf_hist local_cn_a1 local_cn_a2 m1 NaN alt_cnt ref_cnt
               purity grid_size = Ok subc).
  { unfold calc_subc_ccf_hist.
    pose proof (get_clonal_cns_integer local_cn_a1 0 H1) as T1.
    pose proof (get_clonal_cns_integer local_cn_a2 0 H2) as T2.
    destruct (get_clonal_cns local_cn_a1) as [[c1 s1] f1].
    destruct (get_clonal_cns local_cn_a2) as [[c2 s2] f2].
    cbn [snd] in T1, T2.
    assert (E : Qle_bool 1 local_cn_a2 = false).
    { apply not_true_iff_false. rewrite Qle_bool_iff. lra. }
    rewrite E, T1, T2. cbn [bind]. eexists. reflexivity. }
  destruct Esubc as [subc Esubc]. rewrite Esubc. cbn [bind].
  destruct (calc_subc_ccf_hist_shape _ _ _ _ _ _ _ _ _ Esubc) as [Ls _].
  destruct (calc_clonal_ccf_hist_shape alt_cnt grid_size) as [Lc _].
  f_equal. now apply calc_ccf_nan_p_subclonal.
Qed.

Lemma calc_ccf_zero_cn_full_purity_witness :
  calc_ccf 0 0 20 20 1 101 false = Ok (repeat NaN 101) /\
  (forall (hist m1 d2 : array) (f total_cn : Q) (total_cov : nat),
      subc_ccf_dist2 f m1 = Ok d2 ->
      truthy (py_sum (subc_ccf_dist1 f m1)) = false ->
      truthy (py_sum d2) = false ->
      update_ccf_hist hist f m1 1 total_cn 20 total_cov = Ok hist).
Proof.
  apply (calc_ccf_zero_cn_full_purity 0 0 20 20 1 101 false);
    [reflexivity | reflexivity | reflexivity | lia].
Defined.

(** No error is raised for zero total copy number at purity 1: the value
    returned is a histogram of [nan]. *)
Lemma calc_ccf_zero_cn_no_error :
  calc_ccf 0 0 1 1 1 3 false = Ok [NaN; NaN; NaN] /\
  ~ (exists e : exn, calc_ccf 0 0 1 1 1 3 false = Raise e).
Proof.
  assert (E : calc_ccf 0 0 1 1 1 3 false = Ok [NaN; NaN; NaN])
    by (vm_compute; reflexivity).
  split; [exact E |].
  intros [e He]. rewrite E in He. discriminate.
Qed.

(** ** C9: the guarded branches of update_ccf_hist *)

Lemma boundary_weight_f (f purity total_cn : Q) (alt_cnt total_cov : nat) :
  binom_pmf alt_cnt total_cov
    (fdiv (fmul (Fin f) (Fin purity)) (af_denominator total_cn purity))
  = calc_mult_weight f purity total_cn alt_cnt total_cov.
Proof. reflexivity. Qed.

Lemma boundary_weight_1_minus_f (f purity total_cn : Q) (alt_cnt total_cov : nat) :
  binom_pmf alt_cnt total_cov
    (fdiv (fmul (fsub (Fin 1) (Fin f)) (Fin purity))
          (af_denominator total_cn purity))
  = calc_mult_weight (1 - f) purity total_cn alt_cnt total_cov.
Proof.
  unfold calc_mult_weight. do 2 f_equal.
  unfold fsub. cbn [fopp fadd fmul]. apply fin_eq.
  unfold fin. rewrite !Qred_correct. ring.
Qed.

Lemma update_branch_spec (hist dist : array) (boundary : Q) (w : fval)
    (purity total_cn : Q) (alt_cnt total_cov : nat) :
  Forall finite dist -> length hist = length dist ->
  w = calc_mult_weight boundary purity total_cn alt_cnt total_cov ->
  (if truthy (py_sum dist)
   then iadd hist (mul_scalar (div_scalar dist (py_sum dist)) w)
   else Ok hist)
  = Ok (add_truncated_copy hist dist boundary purity total_cn alt_cnt total_cov).
Proof.
  intros Hd L ->. unfold add_truncated_copy.
  destruct (py_sum_fin dist Hd) as [s [-> _]]. cbn [truthy].
  destruct (Qeq_bool s 0); cbn [negb]; [reflexivity |].
  apply iadd_same_length.
  now rewrite mul_scalar_length, div_scalar_length.
Qed.

Lemma add_truncated_copy_length (hist dist : array) (boundary : Q)
    (purity total_cn : Q) (alt_cnt total_cov : nat) :
  length hist = length dist ->
  length (add_truncated_copy hist dist boundary purity total_cn alt_cnt total_cov)
  = length hist.
Proof.
  intros L. unfold add_truncated_copy.
  destruct (py_sum dist) as [s | | |]; try reflexivity.
  destruct (Qeq_bool s 0); [reflexivity |].
  apply add_length. now rewrite mul_scalar_length, div_scalar_length.
Qed.

Lemma update_ccf_hist_as_copies (hist : array) (f : Q)
    (m1 d2 : array) (purity total_cn : Q) (alt_cnt total_cov : nat) :
  Forall finite m1 -> length hist = length m1 ->
  subc_ccf_dist2 f m1 = Ok d2 ->
  update_ccf_hist hist f m1 purity total_cn alt_cnt total_cov
  = Ok (add_truncated_copy
          (add_truncated_copy hist (subc_ccf_dist1 f m1) f
                              purity total_cn alt_cnt total_cov)
          d2 (1 - f) purity total_cn alt_cnt total_cov).
Proof.
  intros Hm L E2.
  destruct (subc_ccf_dist1_shape f m1) as [L1 [_ F1]].
  destruct (subc_ccf_dist2_shape f m1 d2 E2) as [L2 [_ F2]].
  unfold update_ccf_hist. rewrite E2. cbn [bind].
  rewrite (update_branch_spec hist (subc_ccf_dist1 f m1) f _
             purity total_cn alt_cnt total_cov);
    [| now apply F1 | congruence | apply boundary_weight_f].
  cbn [bind].
  apply update_branch_spec;
    [now apply F2 | | apply boundary_weight_1_minus_f].
  rewrite add_truncated_copy_length; congruence.
Qed.

(** C9. In [update_ccf_hist], on a multiplicity-1 histogram of real bins,
    each truncated copy is handled on its own: a copy that sums to zero is
    skipped and the running histogram is what it would be without it; a
    copy with a non-zero sum is divided by that sum, after which it sums
    to 1, and is added with the weight of the Binomial pmf at the allele
    fraction derived from [f] for the first copy and from [1 - f] for the
    second. *)
Theorem update_ccf_hist_truncated_copies (hist : array) (f : Q)
    (m1 d2 : array) (purity total_cn : Q) (alt_cnt total_cov : nat) :
  Forall finite m1 -> length hist = length m1 ->
  subc_ccf_dist2 f m1 = Ok d2 ->
  update_ccf_hist hist f m1 purity total_cn alt_cnt total_cov
  = Ok (add_truncated_copy
          (add_truncated_copy hist (subc_ccf_dist1 f m1) f
                              purity total_cn alt_cnt total_cov)
          d2 (1 - f) purity total_cn alt_cnt total_cov) /\
  (forall (d : array) (s : Q),
      d = subc_ccf_dist1 f m1 \/ d = d2 ->
      py_sum d = Fin s -> ~ s == 0 ->
      py_sum (div_scalar d (py_sum d)) = Fin 1).
Proof.
  intros Hm L E2.
  destruct (subc_ccf_dist1_shape f m1) as [L1 [_ F1]].
  destruct (subc_ccf_dist2_shape f m1 d2 E2) as [L2 [_ F2]].
  split.
  - now apply update_ccf_hist_as_copies.
  - intros d s [-> | ->] Hs Hne; rewrite Hs;
      apply normalize_sums_to_one; auto.
Qed.

Lemma update_ccf_hist_truncated_copies_witness :
  update_ccf_hist (zeros 3) (99 # 100)
                  [Fin (1 # 4); Fin (1 # 2); Fin (1 # 4)] 1 2 1 2
  = Ok (add_truncated_copy
          (add_truncated_copy (zeros 3)
             (subc_ccf_dist1 (99 # 100) [Fin (1 # 4); Fin (1 # 2); Fin (1 # 4)])
             (99 # 100) 1 2 1 2)
          [Fin (1 # 4); Fin 0; Fin (1 # 4)] (1 - (99 # 100)) 1 2 1 2) /\
  (forall (d : array) (s : Q),
      d = subc_ccf_dist1 (99 # 100) [Fin (1 # 4); Fin (1 # 2); Fin (1 # 4)] \/
      d = [Fin (1 # 4); Fin 0; Fin (1 # 4)] ->
      py_sum d = Fin s -> ~ s == 0 ->
      py_sum (div_scalar d (py_sum d)) = Fin 1).
Proof.
  apply (update_ccf_hist_truncated_copies (zeros 3) (99 # 100)
           [Fin (1 # 4); Fin (1 # 2); Fin (1 # 4)]
           [Fin (1 # 4); Fin 0; Fin (1 # 4)] 1 2 1 2).
  - repeat constructor.
  - reflexivity.
  - reflexivity.
Defined.

(** ** C3: the multiplicities summed into p_clonal *)

Lemma Qceiling_unique (x : Q) (k : Z) :
  inject_Z k - 1 < x -> x <= inject_Z k -> Qceiling x = k.
Proof.
  intros Hlo Hhi.
  pose proof (Qle_ceiling x) as Hc.
  pose proof (Qceiling_lt x) as Hl.
  unfold Z.sub in Hl. rewrite inject_Z_plus, inject_Z_opp in Hl.
  change (inject_Z 1) with 1 in Hl.
  assert (H1 : inject_Z (Qceiling x) < inject_Z (k + 1)).
  { rewrite inject_Z_plus. change (inject_Z 1) with 1. lra. }
  assert (H2 : inject_Z k < inject_Z (Qceiling x + 1)).
  { rewrite inject_Z_plus. change (inject_Z 1) with 1. lra. }
  rewrite <- Zlt_Qlt in H1, H2. lia.
Qed.

Lemma arange_empty (start stop : Q) : stop <= start -> arange start stop = [].
Proof.
  intros H. unfold arange.
  assert (Hc : (Qceiling (stop - start) <= 0)%Z).
  { rewrite <- (Qceiling_Z 0). apply Qceiling_resp_le. change (inject_Z 0) with 0. lra. }
  replace (Z.to_nat (Qceiling (stop - start))) with 0%nat by lia.
  reflexivity.
Qed.

(** The first loop runs over the integers 2, ..., clonal_cn_a2. *)
Lemma arange_integers (c : Z) :
  arange 2 (inject_Z c + 1) = integers_from_to 2 c.
Proof.
  unfold arange, integers_from_to.
  assert (Hn : Qceiling (inject_Z c + 1 - 2) = (c - 2 + 1)%Z).
  { apply Qceiling_integer.
    replace (c - 2 + 1)%Z with (c + -1)%Z by lia.
    rewrite inject_Z_plus. change (inject_Z (-1)) with (-1 # 1). lra. }
  rewrite Hn. apply map_ext. intros i.
  rewrite <- (Qred_inject_Z (2 + Z.of_nat i)). apply Qred_complete.
  rewrite inject_Z_plus. reflexivity.
Qed.

Lemma get_clonal_cns_clonal_integer (cn : Q) :
  exists c : Z, fst (fst (get_clonal_cns cn)) = inject_Z c.
Proof.
  unfold get_clonal_cns. destruct (Qltb 1 cn); cbn [fst]; eexists; reflexivity.
Qed.

(** The loops of lines 44 and 47 run over [frac + 1, ..., frac + floor(cn)]
    when the copy number is above 1 and not an integer, and over nothing
    otherwise. *)
Lemma arange_shifted (cn : Q) :
  (if truthy (Fin (snd (get_clonal_cns cn)))
   then arange (snd (get_clonal_cns cn) + 1) (snd (fst (get_clonal_cns cn)))
   else [])
  = shifted_multiplicities cn.
Proof.
  unfold shifted_multiplicities.
  destruct (Qeq_bool cn (inject_Z (Qfloor cn))) eqn:Eint.
  - apply Qeq_bool_eq in Eint.
    now rewrite (get_clonal_cns_integer cn (Qfloor cn) Eint).
  - apply Qeq_bool_neq in Eint.
    destruct (Qceiling_floor_cases cn) as [[_ E] | [Ec Hlt]]; [contradiction |].
    pose proof (Qlt_floor cn) as Hlf.
    rewrite inject_Z_plus in Hlf. change (inject_Z 1) with 1 in Hlf.
    unfold get_clonal_cns.
    destruct (Qltb 1 cn) eqn:Hgt; cbn [fst snd].
    + assert (Ht : truthy (Fin (Qred (cn - inject_Z (Qfloor cn)))) = true).
      { cbn [truthy]. rewrite negb_true_iff. apply not_true_iff_false.
        rewrite Qeq_bool_iff, Qred_correct. lra. }
      rewrite Ht. unfold arange.
      assert (Hn : Qceiling (inject_Z (Qceiling cn)
                             - (Qred (cn - inject_Z (Qfloor cn)) + 1))
                   = Qfloor cn).
      { apply Qceiling_unique; rewrite Ec, inject_Z_plus, Qred_correct;
          change (inject_Z 1) with 1; lra. }
      rewrite Hn, <- seq_shift, map_map. apply map_ext. intros i.
      apply Qred_complete. rewrite Qred_correct, Nat2Z.inj_succ.
      unfold Z.succ. rewrite inject_Z_plus. change (inject_Z 1) with 1. ring.
    + apply Qltb_ge in Hgt.
      destruct (truthy _); [| reflexivity].
      apply arange_empty.
      rewrite Qred_correct, Ec, inject_Z_plus. change (inject_Z 1) with 1. lra.
Qed.

Lemma add_mult_weights_if (t : bool) (p : fval) (mults : list Q)
    (purity total_cn : Q) (alt_cnt total_cov : nat) :
  (if t then add_mult_weights p mults purity total_cn alt_cnt total_cov else p)
  = add_mult_weights p (if t then mults else []) purity total_cn alt_cnt total_cov.
Proof. now destruct t. Qed.

Lemma add_mult_weights_app (p : fval) (l1 l2 : list Q)
    (purity total_cn : Q) (alt_cnt total_cov : nat) :
  add_mult_weights (add_mult_weights p l1 purity total_cn alt_cnt total_cov)
                   l2 purity total_cn alt_cnt total_cov
  = add_mult_weights p (l1 ++ l2) purity total_cn alt_cnt total_cov.
Proof.
  unfold add_mult_weights. now rewrite fold_left_app.
Qed.

Lemma calc_p_clonal_as_list (local_cn_a1 local_cn_a2 : Q)
    (alt_cnt ref_cnt : nat) (purity : Q) :
  calc_p_clonal local_cn_a1 local_cn_a2 alt_cnt ref_cnt purity
  = add_mult_weights (Fin 0)
      (integers_from_to 2 (Qfloor (fst (fst (get_clonal_cns local_cn_a2))))
       ++ shifted_multiplicities local_cn_a1
       ++ shifted_multiplicities local_cn_a2)
      purity (local_cn_a1 + local_cn_a2) alt_cnt (alt_cnt + ref_cnt).
Proof.
  unfold calc_p_clonal.
  rewrite <- (arange_shifted local_cn_a1), <- (arange_shifted local_cn_a2).
  destruct (get_clonal_cns_clonal_integer local_cn_a2) as [c Hc].
  destruct (get_clonal_cns local_cn_a1) as [[c1 s1] f1].
  destruct (get_clonal_cns local_cn_a2) as [[c2 s2] f2].
  cbn [fst snd] in *. subst c2.
  rewrite Qfloor_Z, arange_integers.
  rewrite !add_mult_weights_if, !add_mult_weights_app.
  reflexivity.
Qed.

(** C3, as the code has it. [p_clonal] is the sum of the multiplicity
    weights over the integers from 2 to the major allele's clonal copy
    number and, for each allele whose copy number is above 1 and not an
    integer, over the multiplicities [frac + 1, frac + 2, ...,
    frac + floor(cn)] below the subclonal copy number, which are not
    integers; an allele with a fractional copy number below 1 adds
    nothing. *)
Theorem calc_p_clonal_multiplicities (local_cn_a1 local_cn_a2 : Q)
    (alt_cnt ref_cnt : nat) (purity : Q) :
  calc_p_clonal local_cn_a1 local_cn_a2 alt_cnt ref_cnt purity
  = add_mult_weights (Fin 0)
      (integers_from_to 2 (Qfloor (fst (fst (get_clonal_cns local_cn_a2))))
       ++ shifted_multiplicities local_cn_a1
       ++ shifted_multiplicities local_cn_a2)
      purity (local_cn_a1 + local_cn_a2) alt_cnt (alt_cnt + ref_cnt).
Proof.
  apply calc_p_clonal_as_list.
Qed.

(** With copy numbers 1 and 2.5 the code weighs the multiplicities 2, 1.5
    and 2.5; the integers of the specification's ranges are 2, 1 and 2. *)
Lemma calc_p_clonal_not_integer_ranges :
  calc_p_clonal 1 (5 # 2) 2 0 1 = Fin (50 # 49) /\
  p_clonal_integer_ranges 1 (5 # 2) 2 0 1 = Fin (36 # 49) /\
  calc_p_clonal 1 (5 # 2) 2 0 1 <> p_clonal_integer_ranges 1 (5 # 2) 2 0 1.
Proof.
  split; [| split]; vm_compute; (reflexivity || discriminate).
Qed.

Lemma shifted_multiplicities_example :
  shifted_multiplicities (5 # 2) = [3 # 2; 5 # 2] /\
  shifted_multiplicities 2 = [] /\
  shifted_multiplicities (1 # 2) = [].
Proof. repeat split. Qed.

(** ** C4: the truncated copies *)

Lemma py_int_nonneg (q : Q) : 0 <= q -> py_int q = Qfloor q.
Proof.
  destruct q as [n d]. unfold py_int, Qfloor, Qle. cbn [Qnum Qden].
  intros H. apply Z.quot_div_nonneg; lia.
Qed.


Lemma assign_at_nth (k : nat) (v : fval) (a : array) (i : nat) :
  (i < length a)%nat ->
  nth i (assign_at k v a) NaN = if (k =? i)%nat then v else nth i a NaN.
Proof.
  revert k i. induction a as [| x a IH]; intros k i Hi; [cbn in Hi; lia |].
  destruct k as [| k], i as [| i]; cbn [assign_at nth Nat.eqb]; try reflexivity.
  apply IH. cbn in Hi. lia.
Qed.


(** The second copy (line 93) differs from the multiplicity-1 histogram
    in the single bin [floor((1 - f) * 100)]. *)
Lemma subc_ccf_dist2_single_bin (f : Q) (m1 d2 : array) (i : nat) :
  f <= 1 -> subc_ccf_dist2 f m1 = Ok d2 -> (i < length m1)%nat ->
  nth i d2 NaN
  = if (Z.to_nat (Qfloor ((1 - f) * 100)) =? i)%nat then Fin 0 else nth i m1 NaN.
Proof.
  intros Hf E Hi. unfold subc_ccf_dist2 in E. apply set_item_ok in E. subst d2.
  assert (H0 : 0 <= (1 - f) * 100) by (apply Qmult_le_0_compat; lra).
  rewrite (py_int_nonneg _ H0).
  assert (Hfl : (0 <= Qfloor ((1 - f) * 100))%Z).
  { rewrite <- (Qfloor_Z 0). now apply Qfloor_resp_le. }
  unfold wrap_index.
  destruct (Z.ltb_spec (Qfloor ((1 - f) * 100)) 0); [lia |].
  now apply assign_at_nth.
Qed.

(** C4 at local copy numbers 1.0 and 2.5 with 2 alt and 2 ref reads at
    purity 1.0 on 101 bins. The major allele's subclonal fraction is 0.5,
    so the second copy should be zero from bin [floor((1 - 0.5) * 100) = 50]
    on; the code zeroes bin 50 alone, and bins 51 to 100 keep the non-zero
    values of the multiplicity-1 histogram. *)
Theorem second_copy_keeps_tail :
  exists m1 d2 : array,
    calc_ccf_dist_m1 (1 + (5 # 2)) 2 2 1 101 false = Ok m1 /\
    snd (get_clonal_cns (5 # 2)) = 1 # 2 /\
    Qfloor ((1 - (1 # 2)) * 100) = 50%Z /\
    subc_ccf_dist2 (1 # 2) m1 = Ok d2 /\
    nth 50 d2 NaN = Fin 0 /\
    Forall (fun i => nth i d2 NaN = nth i m1 NaN /\ nth i d2 NaN <> Fin 0)
           (seq 51 50).
Proof.
  eexists. eexists.
  split; [vm_compute; reflexivity |].
  split; [reflexivity |].
  split; [reflexivity |].
  split; [vm_compute; reflexivity |].
  split; [reflexivity |].
  cbn [seq]. repeat (constructor; [split; [reflexivity | discriminate] |]).
  constructor.
Qed.

(** ** C5: the CCF value at the peak bin *)

(** On the default grid of 101 bins, [ccf_mode] is the grid value at the
    peak bin. *)
Lemma calc_ccf_mode_default_grid (m1 : array) (k : nat) :
  argmax m1 = Ok k -> calc_ccf_mode m1 = Ok (ccf_grid_value k 101).
Proof.
  intros E. unfold calc_ccf_mode. rewrite E. reflexivity.
Qed.

(** C5 at local copy numbers 1.0 and 1.0 with 20 alt and 20 ref reads at
    purity 1.0 on 11 bins. The multiplicity-1 histogram peaks in the last
    bin, index 10, whose grid value is 10 / (11 - 1) = 1; the code divides
    the index by 100 and takes 0.1 as [ccf_mode], so the allele fraction
    at the mode is 0.05 instead of 0.5. *)
Theorem ccf_mode_off_grid :
  exists m1 : array,
    calc_ccf_dist_m1 (1 + 1) 20 20 1 11 false = Ok m1 /\
    argmax m1 = Ok 10%nat /\
    ccf_grid_value 10 11 = Fin 1 /\
    calc_ccf_mode m1 = Ok (Fin (1 # 10)) /\
    calc_p_subclonal (Fin (1 # 10)) (1 + 1) 1 20 (20 + 20)
      = binom_pmf 20 40 (Fin (1 # 20)) /\
    calc_p_subclonal (Fin (1 # 10)) (1 + 1) 1 20 (20 + 20)
      <> binom_pmf 20 40 (Fin (1 # 2)).
Proof.
  eexists.
  split; [vm_compute; reflexivity |].
  split; [vm_compute; reflexivity |].
  split; [reflexivity |].
  split; [vm_compute; reflexivity |].
  split; [reflexivity |].
  vm_compute. discriminate.
Qed.

(** ** Values of bins, sums and the peak bin *)

Lemma value_fin (q : Q) : value (fin q) == q.
Proof. cbn. apply Qred_correct. Qed.

Lemma finite_value (x : fval) : finite x -> x = Fin (value x).
Proof.
  intros H. destruct (finite_inv _ H) as [q ->]. reflexivity.
Qed.

Lemma not_negative_value (x : fval) : not_negative x -> 0 <= value x.
Proof.
  destruct x; cbn; intros H; lra.
Qed.

Lemma qsum_nonneg (l : array) : Forall not_negative l -> 0 <= qsum l.
Proof.
  induction 1 as [| x t Hx Ht IH]; cbn [qsum]; [lra |].
  destruct x; cbn in Hx; lra.
Qed.

Lemma qsum_ge_nth (l : array) (k : nat) :
  Forall not_negative l -> value (nth k l NaN) <= qsum l.
Proof.
  intros Hl. revert k. induction Hl as [| x t Hx Ht IH]; intros k.
  - destruct k; cbn; lra.
  - pose proof (qsum_nonneg t Ht) as Hq.
    destruct k as [| k]; cbn [nth qsum].
    + destruct x; cbn in *; lra.
    + specialize (IH k). destruct x; cbn in *; lra.
Qed.

Lemma nth_map_nan (f : fval -> fval) (l : array) (k : nat) :
  f NaN = NaN -> nth k (map f l) NaN = f (nth k l NaN).
Proof.
  intros H. rewrite <- H at 1. apply map_nth.
Qed.

Lemma div_scalar_nth (l : array) (s : fval) (k : nat) :
  nth k (div_scalar l s) NaN = fdiv (nth k l NaN) s.
Proof. unfold div_scalar. now apply nth_map_nan. Qed.

Lemma mul_scalar_nth (l : array) (s : fval) (k : nat) :
  nth k (mul_scalar l s) NaN = fmul (nth k l NaN) s.
Proof. unfold mul_scalar. now apply nth_map_nan. Qed.

Lemma Forall_nth_in (P : fval -> Prop) (l : array) (k : nat) :
  Forall P l -> (k < length l)%nat -> P (nth k l NaN).
Proof.
  intros H Hk. rewrite Forall_forall in H. apply H. now apply nth_In.
Qed.

Lemma fdiv_fin (a s : Q) : ~ s == 0 -> fdiv (Fin a) (Fin s) = fin (a / s).
Proof.
  intros Hs. cbn [fdiv].
  destruct (Qeq_bool s 0) eqn:E; [apply Qeq_bool_eq in E; contradiction |].
  reflexivity.
Qed.

(** An array of non-negative reals with a positive bin has a positive
    sum. *)
Lemma py_sum_pos (l : array) (k : nat) :
  Forall finite l -> Forall not_negative l -> 0 < value (nth k l NaN) ->
  exists s, py_sum l = Fin s /\ s == qsum l /\ 0 < s.
Proof.
  intros Hf Hn Hk. destruct (py_sum_fin l Hf) as [s [E Hs]].
  exists s. split; [exact E |]. split; [exact Hs |].
  pose proof (qsum_ge_nth l k Hn). lra.
Qed.

Lemma argmax_from_spec (l pre : array) (best : nat) (bv : fval) :
  Forall finite pre -> Forall finite l -> finite bv ->
  (best < length pre)%nat -> nth best pre NaN = bv ->
  Forall (fun y => value y <= value bv) pre ->
  (argmax_from l (length pre) best bv < length (pre ++ l))%nat /\
  Forall (fun y => value y
                   <= value (nth (argmax_from l (length pre) best bv)
                                 (pre ++ l) NaN))
         (pre ++ l).
Proof.
  revert pre best bv.
  induction l as [| x t IH]; intros pre best bv Hpre Hl Hbv Hb Hnth Hmax.
  - cbn [argmax_from]. rewrite app_nil_r. split; [exact Hb |].
    now rewrite Hnth.
  - apply Forall_cons_iff in Hl. destruct Hl as [Hx Ht].
    destruct (finite_inv _ Hx) as [a ->].
    destruct (finite_inv _ Hbv) as [b Eb].
    assert (Hlen : length (pre ++ [Fin a]) = S (length pre)).
    { rewrite length_app. cbn. lia. }
    assert (Happ : (pre ++ [Fin a]) ++ t = pre ++ Fin a :: t).
    { now rewrite <- app_assoc. }
    assert (Hpre' : Forall finite (pre ++ [Fin a])).
    { apply Forall_app. split; [exact Hpre | now constructor]. }
    cbn [argmax_from]. rewrite Eb. cbn [is_nan negb andb orb fltb].
    rewrite <- Hlen, <- Happ.
    destruct (Qltb b a) eqn:Hlt.
    + apply Qltb_lt in Hlt.
      apply IH; try assumption.
      * lia.
      * apply nth_middle.
      * apply Forall_app. split.
        -- eapply Forall_impl; [| exact Hmax]. intros y Hy.
           rewrite Eb in Hy. cbn in *. lra.
        -- constructor; [cbn; lra | constructor].
    + apply Qltb_ge in Hlt. rewrite <- Eb.
      apply IH; try assumption.
      * lia.
      * rewrite app_nth1 by exact Hb. exact Hnth.
      * apply Forall_app. split; [exact Hmax |].
        constructor; [rewrite Eb; cbn; lra | constructor].
Qed.

(** On an array of reals [np.argmax] returns the index of a largest bin. *)
Lemma argmax_spec (a : array) :
  Forall finite a -> a <> [] ->
  exists k : nat,
    argmax a = Ok k /\ (k < length a)%nat /\
    forall j : nat, (j < length a)%nat ->
                    value (nth j a NaN) <= value (nth k a NaN).
Proof.
  intros Ha Hne. destruct a as [| x t]; [congruence |].
  inversion Ha as [| ? ? Hx Ht]; subst.
  destruct (argmax_from_spec t [x] 0 x) as [Hk Hmax]; auto.
  - constructor; [lra | constructor].
  - cbn [length app] in *.
    exists (argmax_from t 1 0 x). split; [reflexivity |].
    split; [exact Hk |].
    intros j Hj. rewrite Forall_forall in Hmax. apply Hmax.
    now apply (nth_In (x :: t)).
Qed.

(** ** Normalizing a scaled histogram *)

(** [scaled p r x]: [r] is the real [p * x] and [x] is in lowest terms. *)
Lemma scaled_normalize (p : Q) (raw l : array) :
  Forall2 (fun r x => exists a b : Q, r = Fin a /\ x = fin b /\ a == p * b)
          raw l ->
  ~ p == 0 -> qsum l == 1 ->
  div_scalar raw (py_sum raw) = l.
Proof.
  intros H Hp Hl.
  assert (Hf : Forall finite raw).
  { clear Hl. induction H as [| r x raw' l' [a [b [-> _]]] _ IH];
      constructor; [reflexivity | exact IH]. }
  assert (Hq : qsum raw == p * qsum l).
  { clear Hl Hf. induction H as [| r x raw' l' [a [b [-> [-> E]]]] _ IH].
    - cbn. ring.
    - cbn [qsum fin]. rewrite IH, E, Qred_correct. ring. }
  destruct (py_sum_fin raw Hf) as [s [-> Hs]].
  assert (Es : s == p) by (rewrite Hs, Hq, Hl; ring).
  assert (Hs0 : ~ s == 0) by (rewrite Es; exact Hp).
  clear Hq Hs Hl Hf.
  induction H as [| r x raw' l' [a [b [-> [-> E]]]] _ IH]; [reflexivity |].
  cbn [div_scalar map]. fold (div_scalar raw' (Fin s)). rewrite IH.
  f_equal. rewrite (fdiv_fin _ _ Hs0). apply fin_eq.
  rewrite E, Es. field. exact Hp.
Qed.

(** ** The densities on the unit interval *)

Lemma beta_coef_pos (a b : nat) : 0 < beta_coef a b.
Proof.
  unfold beta_coef. apply Qmult_lt_0_compat; [| apply choose_pos].
  rewrite <- (Zlt_Qlt 0). lia.
Qed.

Lemma beta_pdf_unit (a b : nat) (q : Q) :
  0 <= q <= 1 ->
  beta_pdf (a + 1) (b + 1) (Fin q)
  = fin (beta_coef a b * q ^ Z.of_nat a * (1 - q) ^ Z.of_nat b).
Proof.
  intros Hq. apply in_unit_spec in Hq.
  rewrite !Nat.add_1_r. unfold beta_pdf. now rewrite Hq.
Qed.

Lemma beta_pdf_finite (a b : nat) (x : fval) :
  finite x -> finite (beta_pdf (a + 1) (b + 1) x).
Proof.
  intros Hx. destruct (finite_inv _ Hx) as [q ->].
  rewrite !Nat.add_1_r. unfold beta_pdf.
  now destruct (in_unit q).
Qed.

Lemma Qmult_pos_inv (x y : Q) : 0 <= x -> 0 <= y -> 0 < x * y -> 0 < x /\ 0 < y.
Proof.
  intros Hx Hy H. split.
  - destruct (Qlt_le_dec 0 x) as [|Hle]; [assumption |].
    assert (E : x == 0) by lra. rewrite E in H. lra.
  - destruct (Qlt_le_dec 0 y) as [|Hle]; [assumption |].
    assert (E : y == 0) by lra. rewrite E in H. lra.
Qed.

Lemma Qpower_pos_inv (x : Q) (n : nat) :
  0 <= x -> 0 < x ^ Z.of_nat n -> n = 0%nat \/ 0 < x.
Proof.
  intros Hx H. destruct n as [| n]; [now left | right].
  destruct (Qlt_le_dec 0 x) as [| Hle]; [assumption |].
  assert (E : x == 0) by lra.
  rewrite E, Qpower_0 in H by lia. lra.
Qed.

Lemma Qpower_nat_pos (x : Q) (n : nat) :
  n = 0%nat \/ 0 < x -> 0 < x ^ Z.of_nat n.
Proof.
  intros [-> | H]; [reflexivity | now apply Qpower_0_lt].
Qed.

(** A positive Beta density at [q] means that [q] is in the unit interval
    and that both powers are positive. *)
Lemma beta_pdf_pos_inv (a b : nat) (q : Q) :
  0 < value (beta_pdf (a + 1) (b + 1) (Fin q)) ->
  0 <= q <= 1 /\ (a = 0%nat \/ 0 < q) /\ (b = 0%nat \/ q < 1).
Proof.
  intros H.
  destruct (in_unit q) eqn:Hq.
  - apply in_unit_spec in Hq. split; [exact Hq |].
    rewrite (beta_pdf_unit a b q Hq), value_fin in H.
    pose proof (beta_coef_pos a b) as Hc.
    assert (Hx : 0 <= q ^ Z.of_nat a) by (apply Qpower_0_le; lra).
    assert (Hy : 0 <= (1 - q) ^ Z.of_nat b) by (apply Qpower_0_le; lra).
    rewrite <- Qmult_assoc in H.
    destruct (Qmult_pos_inv _ _ (Qlt_le_weak _ _ Hc)
                (Qmult_le_0_compat _ _ Hx Hy) H) as [_ Hxy].
    destruct (Qmult_pos_inv _ _ Hx Hy Hxy) as [Hpx Hpy].
    split.
    + apply Qpower_pos_inv; [lra | exact Hpx].
    + destruct (Qpower_pos_inv (1 - q) b) as [-> | Hlt]; [lra | exact Hpy | | ];
        [now left | right; lra].
  - rewrite !Nat.add_1_r in H. unfold beta_pdf in H. rewrite Hq in H.
    cbn in H. lra.
Qed.

Lemma powers_pos (c q : Q) (a b : nat) :
  0 < c -> (a = 0%nat \/ 0 < q) -> (b = 0%nat \/ q < 1) ->
  0 < c * q ^ Z.of_nat a * (1 - q) ^ Z.of_nat b.
Proof.
  intros Hc Ha Hb.
  apply Qmult_lt_0_compat; [apply Qmult_lt_0_compat |].
  - exact Hc.
  - now apply Qpower_nat_pos.
  - apply Qpower_nat_pos. destruct Hb; [now left | right; lra].
Qed.

Lemma beta_pdf_pos (a b : nat) (q : Q) :
  0 <= q <= 1 -> (a = 0%nat \/ 0 < q) -> (b = 0%nat \/ q < 1) ->
  0 < value (beta_pdf (a + 1) (b + 1) (Fin q)).
Proof.
  intros Hq Ha Hb. rewrite (beta_pdf_unit a b q Hq), value_fin.
  apply powers_pos; auto using beta_coef_pos.
Qed.

Lemma binom_pmf_unit (k n : nat) (q : Q) :
  0 <= q <= 1 -> (k <= n)%nat ->
  binom_pmf k n (Fin q)
  = fin (choose n k * q ^ Z.of_nat k * (1 - q) ^ Z.of_nat (n - k)).
Proof.
  intros Hq Hk. apply in_unit_spec in Hq. apply Nat.leb_le in Hk.
  unfold binom_pmf. now rewrite Hq, Hk.
Qed.

Lemma binom_pmf_finite (k n : nat) (q : Q) :
  0 <= q <= 1 -> finite (binom_pmf k n (Fin q)).
Proof.
  intros Hq. apply in_unit_spec in Hq. unfold binom_pmf. rewrite Hq.
  now destruct (Nat.leb k n).
Qed.

Lemma binom_pmf_pos (a b : nat) (q : Q) :
  0 <= q <= 1 -> (a = 0%nat \/ 0 < q) -> (b = 0%nat \/ q < 1) ->
  0 < value (binom_pmf a (a + b) (Fin q)).
Proof.
  intros Hq Ha Hb. rewrite (binom_pmf_unit a (a + b) q Hq) by lia.
  rewrite value_fin. replace (a + b - a)%nat with b by lia.
  apply powers_pos; auto using choose_pos.
Qed.

(** ** The grid and the allele fractions of its bins *)

Lemma nth_map_seq (f : nat -> fval) (n k : nat) :
  (k < n)%nat -> nth k (map f (seq 0 n)) NaN = f k.
Proof.
  intros Hk.
  rewrite (nth_indep _ NaN (f 0%nat)) by now rewrite length_map, length_seq.
  rewrite map_nth, seq_nth by exact Hk. reflexivity.
Qed.

Lemma linspace01_nth (n k : nat) :
  (2 <= n)%nat -> (k < n)%nat ->
  nth k (linspace01 n) NaN
  = fin (inject_Z (Z.of_nat k) / inject_Z (Z.of_nat (n - 1))).
Proof.
  intros Hn Hk. destruct n as [| [| n]]; try lia.
  unfold linspace01. now rewrite nth_map_seq.
Qed.

Lemma linspace01_finite (n : nat) : Forall finite (linspace01 n).
Proof.
  destruct n as [| [| n]]; [constructor | repeat constructor |].
  unfold linspace01. rewrite Forall_map. apply Forall_forall.
  intros i _. reflexivity.
Qed.

(** For a total copy number of at least 1 and a purity in (0, 1], the
    denominator of the allele fraction is a real that is at least 1, at
    least the purity and at least [total_cn * purity]. *)
Lemma af_denominator_valid (total_cn purity : Q) :
  1 <= total_cn -> 0 < purity -> purity <= 1 ->
  exists d : Q,
    af_denominator total_cn purity = Fin d /\
    1 <= d /\ purity <= d /\ total_cn * purity <= d.
Proof.
  intros Ht Hp0 Hp1.
  destruct (af_denominator_fin total_cn purity) as [d [E Hd]].
  exists d. split; [exact E |].
  assert (H : 0 <= (total_cn - 1) * purity) by (apply Qmult_le_0_compat; lra).
  assert (H' : (total_cn - 1) * purity == total_cn * purity - purity) by ring.
  lra.
Qed.

Lemma m1_domain_length (cp : bool) (total_cn purity : Q) (grid_size : nat) :
  length (m1_domain cp total_cn purity grid_size) = grid_size.
Proof.
  unfold m1_domain. destruct cp;
    now rewrite div_scalar_length, !mul_scalar_length, linspace01_length.
Qed.

(** Bin [k] of an at least two-bin grid maps to the allele fraction
    [k / (grid_size - 1) * rho / d], where [rho] is the purity in CCF mode
    and 1 in cancer-cell-ploidy mode. *)
Lemma m1_domain_nth (cp : bool) (total_cn purity d : Q) (grid_size k : nat) :
  af_denominator total_cn purity = Fin d -> ~ d == 0 ->
  (2 <= grid_size)%nat -> (k < grid_size)%nat ->
  exists x : Q,
    nth k (m1_domain cp total_cn purity grid_size) NaN = Fin x /\
    x == inject_Z (Z.of_nat k) / inject_Z (Z.of_nat (grid_size - 1))
         * (if cp then 1 else purity) / d.
Proof.
  intros Ed Hd Hg Hk. unfold m1_domain. rewrite Ed.
  destruct cp; rewrite div_scalar_nth, !mul_scalar_nth, linspace01_nth by lia.
  all: set (c := inject_Z (Z.of_nat k) / inject_Z (Z.of_nat (grid_size - 1)));
    repeat (unfold fin; cbn [fmul]); rewrite fdiv_fin by exact Hd;
    eexists; (split; [reflexivity |]);
    unfold fin; rewrite !Qred_correct; field; exact Hd.
Qed.

Lemma m1_domain_finite (cp : bool) (total_cn purity d : Q) (grid_size : nat) :
  af_denominator total_cn purity = Fin d -> ~ d == 0 ->
  Forall finite (m1_domain cp total_cn purity grid_size).
Proof.
  intros Ed Hd. unfold m1_domain. rewrite Ed.
  pose proof (linspace01_finite grid_size) as Hb.
  destruct cp; unfold div_scalar, mul_scalar; rewrite !Forall_map;
    (eapply Forall_impl; [| exact Hb]); intros x Hx;
    destruct (finite_inv _ Hx) as [q ->]; repeat (unfold fin; cbn [fmul]);
    rewrite fdiv_fin by exact Hd; reflexivity.
Qed.

Lemma calc_ccf_dist_m1_eq (total_cn : Q) (alt_cnt ref_cnt : nat)
    (purity : Q) (grid_size : nat) (cp : bool) :
  calc_ccf_dist_m1 total_cn alt_cnt ref_cnt purity grid_size cp
  = Ok (div_scalar
          (map (beta_pdf (alt_cnt + 1) (ref_cnt + 1))
               (m1_domain cp total_cn purity grid_size))
          (py_sum (map (beta_pdf (alt_cnt + 1) (ref_cnt + 1))
                       (m1_domain cp total_cn purity grid_size)))).
Proof.
  unfold calc_ccf_dist_m1, cp_dist_from_params, ccf_dist_from_params, m1_domain.
  change (Qeq_bool 1 0) with false.
  now destruct cp.
Qed.

(** ** The multiplicity-1 histogram on valid inputs *)

Section ValidInput.

Variables (total_cn purity : Q) (alt_cnt ref_cnt : nat) (cp : bool).
Hypothesis total_cn_ge_1 : 1 <= total_cn.
Hypothesis purity_pos : 0 < purity.
Hypothesis purity_le_1 : purity <= 1.

(** The factor of the grid value in the allele fraction of a bin. *)
Let rho : Q := if cp then 1 else purity.

Lemma rho_unit : 0 < rho /\ rho <= 1.
Proof. unfold rho. destruct cp; lra. Qed.

Lemma scaled_fraction_unit (c d : Q) :
  0 <= c <= 1 -> 1 <= d -> purity <= d ->
  0 <= c * rho / d <= c.
Proof.
  intros Hc Hd Hpd.
  assert (Hr : rho <= d) by (unfold rho; destruct cp; lra).
  destruct rho_unit as [Hr0 Hr1].
  assert (Hd0 : 0 < d) by lra.
  split.
  - apply Qle_shift_div_l; [exact Hd0 |].
    assert (0 <= c * rho) by (apply Qmult_le_0_compat; lra). lra.
  - apply Qle_shift_div_r; [exact Hd0 |].
    assert (0 <= c * (d - rho)) by (apply Qmult_le_0_compat; lra).
    assert (c * (d - rho) == c * d - c * rho) by ring. lra.
Qed.

Lemma scaled_fraction_pos (c d : Q) :
  0 < c -> 1 <= d -> 0 < c * rho / d.
Proof.
  intros Hc Hd. destruct rho_unit as [Hr0 _].
  apply Qlt_shift_div_l; [lra |].
  assert (0 < c * rho) by (apply Qmult_lt_0_compat; lra). lra.
Qed.

Section Grid.

Variable grid_size : nat.
Hypothesis grid_size_ge_3 : (3 <= grid_size)%nat.

Let raw : array :=
  map (beta_pdf (alt_cnt + 1) (ref_cnt + 1))
      (m1_domain cp total_cn purity grid_size).

Lemma grid_value_unit (k : nat) :
  (k < grid_size)%nat ->
  0 <= inject_Z (Z.of_nat k) / inject_Z (Z.of_nat (grid_size - 1)) <= 1.
Proof.
  intros Hk.
  assert (Hn : 0 < inject_Z (Z.of_nat (grid_size - 1))).
  { rewrite <- (Zlt_Qlt 0). lia. }
  assert (Hk0 : 0 <= inject_Z (Z.of_nat k)).
  { rewrite <- (Zle_Qle 0). lia. }
  assert (Hkn : inject_Z (Z.of_nat k) <= inject_Z (Z.of_nat (grid_size - 1))).
  { rewrite <- Zle_Qle. lia. }
  split.
  - apply Qle_shift_div_l; [exact Hn | lra].
  - apply Qle_shift_div_r; [exact Hn | lra].
Qed.

Lemma grid_value_1 :
  0 < inject_Z (Z.of_nat 1) / inject_Z (Z.of_nat (grid_size - 1)) /\
  inject_Z (Z.of_nat 1) / inject_Z (Z.of_nat (grid_size - 1)) < 1.
Proof.
  assert (Hn : 1 < inject_Z (Z.of_nat (grid_size - 1))).
  { rewrite <- (Zlt_Qlt 1). lia. }
  change (inject_Z (Z.of_nat 1)) with 1. split.
  - apply Qlt_shift_div_l; lra.
  - apply Qlt_shift_div_r; lra.
Qed.

Lemma raw_length : length raw = grid_size.
Proof.
  unfold raw. now rewrite length_map, m1_domain_length.
Qed.

Lemma raw_nth (k : nat) : nth k raw NaN
  = beta_pdf (alt_cnt + 1) (ref_cnt + 1)
             (nth k (m1_domain cp total_cn purity grid_size) NaN).
Proof.
  unfold raw. apply nth_map_nan. now rewrite !Nat.add_1_r.
Qed.

(** The Beta densities of the bins are non-negative reals with a positive
    sum: bin 1 maps strictly inside the unit interval. *)
Lemma raw_sum_pos :
  Forall finite raw /\ Forall not_negative raw /\
  exists s : Q, py_sum raw = Fin s /\ 0 < s.
Proof.
  destruct (af_denominator_valid total_cn purity total_cn_ge_1 purity_pos
              purity_le_1) as [d [Ed [Hd1 [Hpd _]]]].
  assert (Hd0 : ~ d == 0) by lra.
  assert (Hf : Forall finite raw).
  { unfold raw. rewrite Forall_map.
    eapply Forall_impl; [| exact (m1_domain_finite cp _ _ d grid_size Ed Hd0)].
    intros x. apply beta_pdf_finite. }
  assert (Hn : Forall not_negative raw).
  { unfold raw. rewrite Forall_map. apply Forall_forall.
    intros x _. apply beta_pdf_not_negative. }
  split; [exact Hf |]. split; [exact Hn |].
  destruct (m1_domain_nth cp total_cn purity d grid_size 1 Ed Hd0)
    as [x [Ex Hx]]; try lia.
  fold rho in Hx. destruct grid_value_1 as [Hg0 Hg1].
  pose proof (scaled_fraction_pos _ d Hg0 Hd1) as Hx0.
  pose proof (scaled_fraction_unit _ d (conj (Qlt_le_weak _ _ Hg0)
                                             (Qlt_le_weak _ _ Hg1)) Hd1 Hpd)
    as [_ Hx1].
  destruct (py_sum_pos raw 1 Hf Hn) as [s [Es [_ Hs]]].
  - rewrite raw_nth, Ex. apply beta_pdf_pos; [lra | right; lra | right; lra].
  - now exists s.
Qed.

End Grid.

End ValidInput.

Section NormalizedM1.

Variables (total_cn purity : Q) (alt_cnt ref_cnt : nat) (cp : bool).
Hypothesis total_cn_ge_1 : 1 <= total_cn.
Hypothesis purity_pos : 0 < purity.
Hypothesis purity_le_1 : purity <= 1.
Variable grid_size : nat.
Hypothesis grid_size_ge_3 : (3 <= grid_size)%nat.

Let raw : array :=
  map (beta_pdf (alt_cnt + 1) (ref_cnt + 1))
      (m1_domain cp total_cn purity grid_size).

Let m1 : array := div_scalar raw (py_sum raw).

Lemma m1_is_calc_ccf_dist_m1 :
  calc_ccf_dist_m1 total_cn alt_cnt ref_cnt purity grid_size cp = Ok m1.
Proof. apply calc_ccf_dist_m1_eq. Qed.

Lemma raw_sum :
  exists s : Q, py_sum raw = Fin s /\ 0 < s /\ s == qsum raw /\
                Forall finite raw /\ Forall not_negative raw.
Proof.
  destruct (raw_sum_pos total_cn purity alt_cnt ref_cnt cp total_cn_ge_1
              purity_pos purity_le_1 grid_size grid_size_ge_3)
    as [Hf [Hn [s [Es Hs]]]].
  fold raw in Hf, Hn, Es.
  destruct (py_sum_fin raw Hf) as [s' [Es' Hq]].
  rewrite Es in Es'. injection Es' as <-.
  exists s. auto.
Qed.

(** The multiplicity-1 histogram of a valid input: [grid_size] non-negative
    reals in lowest terms that sum to 1. *)
Lemma m1_normalized :
  length m1 = grid_size /\ Forall finite m1 /\ Forall not_negative m1 /\
  py_sum m1 = Fin 1 /\ qsum m1 == 1 /\
  Forall (fun x => exists b : Q, x = fin b) m1.
Proof.
  destruct raw_sum as [s [Es [Hs [Hq [Hf Hn]]]]].
  assert (Hs0 : ~ s == 0) by lra.
  destruct (div_scalar_finite raw s Hf Hs0) as [Hmf Hmq].
  unfold m1. rewrite Es.
  split; [unfold raw; now rewrite div_scalar_length, length_map, m1_domain_length |].
  split; [exact Hmf |].
  split; [apply div_scalar_not_negative; [exact Hn | cbn; lra] |].
  split; [now apply normalize_sums_to_one |].
  split; [rewrite Hmq, <- Hq; field; exact Hs0 |].
  unfold div_scalar. rewrite Forall_map.
  eapply Forall_impl; [| exact Hf]. intros x Hx.
  destruct (finite_inv _ Hx) as [a ->].
  exists (a / s). now apply fdiv_fin.
Qed.

Lemma m1_nth_pos (k : nat) :
  0 < value (nth k m1 NaN) -> 0 < value (nth k raw NaN).
Proof.
  destruct raw_sum as [s [Es [Hs [_ [Hf _]]]]].
  unfold m1. rewrite Es, div_scalar_nth.
  destruct (nth k raw NaN) as [a | | |];
    [| cbn [fdiv]; destruct (Qltb s 0); cbn [value]; intros; lra
     | cbn [fdiv]; destruct (Qltb s 0); cbn [value]; intros; lra
     | cbn [fdiv value]; intros; lra].
  rewrite fdiv_fin by lra. rewrite value_fin. cbn [value]. intros H.
  assert (E : a == a / s * s) by (field; lra).
  rewrite E. apply Qmult_lt_0_compat; lra.
Qed.

Lemma m1_bin_1_pos : 0 < value (nth 1 m1 NaN).
Proof.
  destruct raw_sum as [s [Es [Hs [_ [Hf Hn]]]]].
  destruct (af_denominator_valid total_cn purity total_cn_ge_1 purity_pos
              purity_le_1) as [d [Ed [Hd1 [Hpd _]]]].
  assert (Hd0 : ~ d == 0) by lra.
  destruct (m1_domain_nth cp total_cn purity d grid_size 1 Ed Hd0)
    as [x [Ex Hx]]; try lia.
  destruct (grid_value_1 grid_size grid_size_ge_3) as [Hg0 Hg1].
  pose proof (scaled_fraction_pos purity cp purity_pos purity_le_1 _ d Hg0 Hd1)
    as Hx0.
  pose proof (scaled_fraction_unit purity cp purity_pos purity_le_1 _ d
                (conj (Qlt_le_weak _ _ Hg0) (Qlt_le_weak _ _ Hg1)) Hd1 Hpd)
    as [_ Hx1].
  assert (Hr : 0 < value (nth 1 raw NaN)).
  { unfold raw. rewrite nth_map_nan by now rewrite !Nat.add_1_r.
    rewrite Ex. apply beta_pdf_pos; [lra | right; lra | right; lra]. }
  unfold m1. rewrite Es, div_scalar_nth.
  assert (Hfin : finite (nth 1 raw NaN)).
  { apply Forall_nth_in; [exact Hf |].
    unfold raw. rewrite length_map, m1_domain_length. lia. }
  destruct (finite_inv _ Hfin) as [a Ea]. rewrite Ea in *.
  rewrite fdiv_fin by lra. rewrite value_fin. cbn [value] in Hr.
  apply Qlt_shift_div_l; lra.
Qed.

End NormalizedM1.

(** ** The subclonal likelihood on the default grid *)

(** On the default grid of 101 bins the allele fraction at the mode is the
    allele fraction of the peak bin (times the purity in cancer-cell-ploidy
    mode), where the Beta density is positive; so the Binomial pmf there
    is a positive real. *)
Lemma p_subclonal_pos (total_cn purity : Q) (alt_cnt ref_cnt : nat)
    (cp : bool) (m1 : array) :
  1 <= total_cn -> 0 < purity -> purity <= 1 ->
  calc_ccf_dist_m1 total_cn alt_cnt ref_cnt purity 101 cp = Ok m1 ->
  exists (ccf_mode : fval) (ps : Q),
    calc_ccf_mode m1 = Ok ccf_mode /\
    calc_p_subclonal ccf_mode total_cn purity alt_cnt (alt_cnt + ref_cnt)
      = Fin ps /\
    0 < ps.
Proof.
  intros Ht Hp0 Hp1 Em1.
  assert (Hg : (3 <= 101)%nat) by lia.
  rewrite calc_ccf_dist_m1_eq in Em1. injection Em1 as <-.
  set (raw := map (beta_pdf (alt_cnt + 1) (ref_cnt + 1))
                  (m1_domain cp total_cn purity 101)).
  set (m1 := div_scalar raw (py_sum raw)).
  destruct (m1_normalized total_cn purity alt_cnt ref_cnt cp Ht Hp0 Hp1 101 Hg)
    as [Lm [Hmf _]].
  fold raw in Lm, Hmf. fold m1 in Lm, Hmf.
  pose proof (m1_bin_1_pos total_cn purity alt_cnt ref_cnt cp Ht Hp0 Hp1 101 Hg)
    as H1.
  fold raw in H1. fold m1 in H1.
  assert (Hne : m1 <> []) by (destruct m1; [cbn in Lm; lia | discriminate]).
  destruct (argmax_spec m1 Hmf Hne) as [k [Ek [Hk Hmax]]].
  assert (Hkpos : 0 < value (nth k m1 NaN)).
  { specialize (Hmax 1%nat). rewrite Lm in Hmax.
    assert (Hle : value (nth 1 m1 NaN) <= value (nth k m1 NaN)) by (apply Hmax; lia).
    lra. }
  pose proof (m1_nth_pos total_cn purity alt_cnt ref_cnt cp Ht Hp0 Hp1 101 Hg k)
    as Hraw.
  fold raw in Hraw. fold m1 in Hraw. specialize (Hraw Hkpos).
  destruct (af_denominator_valid total_cn purity Ht Hp0 Hp1)
    as [d [Ed [Hd1 [Hpd _]]]].
  assert (Hd0 : ~ d == 0) by lra.
  rewrite Lm in Hk.
  destruct (m1_domain_nth cp total_cn purity d 101 k Ed Hd0) as [x [Ex Hx]];
    try lia.
  unfold raw in Hraw. rewrite nth_map_nan in Hraw by now rewrite !Nat.add_1_r.
  rewrite Ex in Hraw.
  destruct (beta_pdf_pos_inv _ _ _ Hraw) as [Hxu [Hxa Hxb]].
  change (inject_Z (Z.of_nat (101 - 1))) with 100 in Hx.
  set (c := inject_Z (Z.of_nat k)) in *.
  unfold calc_ccf_mode. rewrite Ek. cbn [bind]. fold c.
  eexists. 
  assert (Eaf : exists y : Q,
             fdiv (fmul (fdiv (Fin c) (Fin 100)) (Fin purity))
                  (af_denominator total_cn purity) = Fin y /\
             y == c / 100 * purity / d).
  { rewrite Ed. rewrite (fdiv_fin c 100) by (intro E; discriminate E).
    unfold fin. cbn [fmul]. unfold fin. rewrite fdiv_fin by exact Hd0.
    eexists. split; [reflexivity |].
    rewrite !Qred_correct. reflexivity. }
  destruct Eaf as [y [Ey Hy]].
  assert (Hyx : y == (if cp then purity else 1) * x).
  { rewrite Hy, Hx. destruct cp; field; exact Hd0. }
  assert (Hr : 0 < (if cp then purity else 1) /\ (if cp then purity else 1) <= 1)
    by (destruct cp; lra).
  set (r := if cp then purity else 1) in *. destruct Hr as [Hr0 Hr1].
  assert (Hrx0 : 0 <= r * x) by (apply Qmult_le_0_compat; lra).
  assert (Hrx1 : 0 <= (1 - r) * x) by (apply Qmult_le_0_compat; lra).
  assert (Hrx2 : (1 - r) * x == x - r * x) by ring.
  assert (Hyu : 0 <= y <= 1) by lra.
  assert (Hya : alt_cnt = 0%nat \/ 0 < y).
  { destruct Hxa as [-> | Hx0]; [now left | right].
    rewrite Hyx. apply Qmult_lt_0_compat; lra. }
  assert (Hyb : ref_cnt = 0%nat \/ y < 1).
  { destruct Hxb as [-> | Hx1]; [now left | right; lra]. }
  exists (value (binom_pmf alt_cnt (alt_cnt + ref_cnt) (Fin y))).
  split; [reflexivity |].
  unfold calc_p_subclonal. rewrite Ey.
  split.
  - apply finite_value. now apply binom_pmf_finite.
  - now apply binom_pmf_pos.
Qed.

(** ** C1: the returned histogram *)

(** C1, as the code has it. Whenever [calc_ccf] returns a histogram whose
    bins are all real numbers (no [nan], no [inf]), every bin is
    non-negative and the bins sum to exactly 1 in exact arithmetic, hence
    to 1.0 within 1e-9. *)
Theorem calc_ccf_normalized (local_cn_a1 local_cn_a2 : Q)
    (alt_cnt ref_cnt : nat) (purity : Q) (grid_size : nat) (cp : bool)
    (h : array) :
  calc_ccf local_cn_a1 local_cn_a2 alt_cnt ref_cnt purity grid_size cp = Ok h ->
  Forall finite h ->
  Forall nonneg h /\ py_sum h = Fin 1 /\ normalized_histogram h.
Proof.
  apply calc_ccf_finite_normalized.
Qed.

Lemma calc_ccf_normalized_witness :
  exists h : array,
    calc_ccf 1 (5 # 2) 2 1 (4 # 5) 101 false = Ok h /\
    Forall nonneg h /\ py_sum h = Fin 1 /\ normalized_histogram h.
Proof.
  destruct (calc_ccf 1 (5 # 2) 2 1 (4 # 5) 101 false) as [h | e] eqn:E.
  - exists h. split; [reflexivity |].
    apply (calc_ccf_normalized 1 (5 # 2) 2 1 (4 # 5) 101 false h E).
    vm_compute in E. injection E as <-. repeat constructor.
  - vm_compute in E. discriminate.
Defined.

(** ** Sums of scaled and added histograms *)






(** Dividing non-negative reals with a positive sum by that sum gives
    non-negative reals that sum to 1. *)
Lemma normalize_positive_sum (l : array) :
  Forall finite l -> Forall not_negative l -> 0 < qsum l ->
  Forall finite (div_scalar l (py_sum l)) /\
  Forall not_negative (div_scalar l (py_sum l)) /\
  py_sum (div_scalar l (py_sum l)) = Fin 1 /\
  qsum (div_scalar l (py_sum l)) == 1.
Proof.
  intros Hf Hn Hq.
  destruct (py_sum_fin l Hf) as [s [Es Hs]].
  assert (Hs0 : ~ s == 0) by lra.
  destruct (div_scalar_finite l s Hf Hs0) as [Hdf Hdq].
  split; [now rewrite Es |].
  split; [now apply normalize_not_negative |].
  split; [rewrite Es; now apply normalize_sums_to_one |].
  rewrite Es, Hdq, <- Hs. field. exact Hs0.
Qed.

(** ** The likelihood of the clonal multiplicities on valid inputs *)

Lemma calc_mult_weight_finite (mult purity total_cn d : Q)
    (alt_cnt total_cov : nat) :
  af_denominator total_cn purity = Fin d -> 0 < d ->
  0 <= mult * purity <= d ->
  finite (calc_mult_weight mult purity total_cn alt_cnt total_cov).
Proof.
  intros Ed Hd [H0 H1]. unfold calc_mult_weight. rewrite Ed.
  cbn [fmul]. unfold fin. rewrite fdiv_fin by lra.
  apply binom_pmf_finite. rewrite !Qred_correct. split.
  - apply Qle_shift_div_l; lra.
  - apply Qle_shift_div_r; lra.
Qed.

Lemma add_mult_weights_finite (p : fval) (mults : list Q)
    (purity total_cn d : Q) (alt_cnt total_cov : nat) :
  af_denominator total_cn purity = Fin d -> 0 < d ->
  finite p -> Forall (fun m => 0 <= m * purity <= d) mults ->
  finite (add_mult_weights p mults purity total_cn alt_cnt total_cov).
Proof.
  intros Ed Hd Hp Hm. unfold add_mult_weights. revert p Hp.
  induction Hm as [| m t Hm Ht IH]; intros p Hp; cbn [fold_left]; [exact Hp |].
  apply IH.
  pose proof (calc_mult_weight_finite m purity total_cn d alt_cnt total_cov
                Ed Hd Hm) as Hw.
  destruct (finite_inv _ Hp) as [a ->]. destruct (finite_inv _ Hw) as [b ->].
  reflexivity.
Qed.

Lemma integers_from_to_bounds (lo hi : Z) :
  Forall (fun m => inject_Z lo <= m <= inject_Z hi) (integers_from_to lo hi).
Proof.
  unfold integers_from_to. rewrite Forall_map. apply Forall_forall.
  intros i Hi. apply in_seq in Hi. rewrite <- !Zle_Qle. lia.
Qed.

Lemma clonal_range_bounds (cn : Q) :
  0 <= cn ->
  Forall (fun m => 0 <= m <= cn)
         (integers_from_to 2 (Qfloor (fst (fst (get_clonal_cns cn))))).
Proof.
  intros Hcn. unfold get_clonal_cns.
  destruct (Qltb 1 cn) eqn:Hgt; cbn [fst]; rewrite Qfloor_Z.
  - pose proof (Qfloor_le cn) as Hfl.
    eapply Forall_impl; [| apply integers_from_to_bounds].
    intros m [H2 Hm]. cbn beta in *. change (inject_Z 2) with 2 in H2. lra.
  - apply Qltb_ge in Hgt.
    assert (Hc : (Qceiling cn <= 1)%Z).
    { rewrite <- (Qceiling_Z 1). now apply Qceiling_resp_le. }
    unfold integers_from_to.
    replace (Z.to_nat (Qceiling cn - 2 + 1)) with 0%nat by lia.
    constructor.
Qed.

Lemma shifted_multiplicities_bounds (cn : Q) :
  Forall (fun m => 0 <= m <= cn) (shifted_multiplicities cn).
Proof.
  unfold shifted_multiplicities.
  destruct (Qeq_bool cn (inject_Z (Qfloor cn))); [constructor |].
  destruct (Qltb 1 cn); [| constructor].
  pose proof (Qfloor_le cn) as Hfl.
  rewrite Forall_map. apply Forall_forall. intros k Hk.
  apply in_seq in Hk. rewrite Qred_correct.
  assert (H1 : 1 <= inject_Z (Z.of_nat k)).
  { rewrite <- (Zle_Qle 1). lia. }
  assert (H2 : inject_Z (Z.of_nat k) <= inject_Z (Qfloor cn)).
  { rewrite <- Zle_Qle. lia. }
  lra.
Qed.

(** On a valid input every multiplicity summed into [p_clonal] maps to an
    allele fraction in the unit interval, so [p_clonal] is a non-negative
    real. *)
Lemma calc_p_clonal_finite (local_cn_a1 local_cn_a2 : Q)
    (alt_cnt ref_cnt : nat) (purity : Q) :
  0 <= local_cn_a1 -> 1 <= local_cn_a2 -> 0 < purity -> purity <= 1 ->
  exists pc : Q,
    calc_p_clonal local_cn_a1 local_cn_a2 alt_cnt ref_cnt purity = Fin pc /\
    0 <= pc.
Proof.
  intros H1 H2 Hp0 Hp1.
  destruct (af_denominator_valid (local_cn_a1 + local_cn_a2) purity)
    as [d [Ed [Hd1 [_ Htd]]]]; try lra.
  assert (Hf : finite (calc_p_clonal local_cn_a1 local_cn_a2 alt_cnt ref_cnt purity)).
  { rewrite calc_p_clonal_as_list.
    apply (add_mult_weights_finite _ _ _ _ d); [exact Ed | lra | reflexivity |].
    assert (Hb : forall cn m, 0 <= cn <= local_cn_a1 + local_cn_a2 ->
                              0 <= m <= cn -> 0 <= m * purity <= d).
    { intros cn m Hcn Hm.
      assert (0 <= m * purity) by (apply Qmult_le_0_compat; lra).
      assert (0 <= (local_cn_a1 + local_cn_a2 - m) * purity)
        by (apply Qmult_le_0_compat; lra).
      assert ((local_cn_a1 + local_cn_a2 - m) * purity
              == (local_cn_a1 + local_cn_a2) * purity - m * purity) by ring.
      lra. }
    apply Forall_app; split; [| apply Forall_app; split].
    - eapply Forall_impl; [| apply (clonal_range_bounds local_cn_a2); lra].
      intros m. apply Hb. lra.
    - eapply Forall_impl; [| apply (shifted_multiplicities_bounds local_cn_a1)].
      intros m. apply Hb. lra.
    - eapply Forall_impl; [| apply (shifted_multiplicities_bounds local_cn_a2)].
      intros m. apply Hb. lra. }
  pose proof (calc_p_clonal_not_negative local_cn_a1 local_cn_a2 alt_cnt ref_cnt
                purity) as Hn.
  destruct (finite_inv _ Hf) as [pc E]. rewrite E in Hn.
  exists pc. split; [exact E | exact Hn].
Qed.

(** ** The subclonal branch on valid inputs *)









(** The clonal branch: the density of Beta(alt + 1, 1) on a grid of at
    least two bins is positive in the last bin, so its normalization is
    defined. *)
Lemma calc_clonal_ccf_hist_valid (alt_cnt grid_size : nat) :
  (2 <= grid_size)%nat ->
  Forall finite (calc_clonal_ccf_hist alt_cnt grid_size) /\
  qsum (calc_clonal_ccf_hist alt_cnt grid_size) == 1.
Proof.
  intros Hg. unfold calc_clonal_ccf_hist.
  set (raw := map (beta_pdf (alt_cnt + 1) 1) (linspace01 grid_size)).
  assert (Hf : Forall finite raw).
  { unfold raw. rewrite Forall_map.
    eapply Forall_impl; [| apply linspace01_finite].
    intros x. apply (beta_pdf_finite alt_cnt 0). }
  assert (Hn : Forall not_negative raw).
  { unfold raw. rewrite Forall_map. apply Forall_forall.
    intros x _. apply beta_pdf_not_negative. }
  assert (Hlast : 0 < value (nth (grid_size - 1) raw NaN)).
  { unfold raw. rewrite nth_map_nan by now rewrite Nat.add_1_r.
    rewrite linspace01_nth by lia.
    assert (Hn0 : 0 < inject_Z (Z.of_nat (grid_size - 1))).
    { rewrite <- (Zlt_Qlt 0). lia. }
    assert (E1 : Qred (inject_Z (Z.of_nat (grid_size - 1))
                       / inject_Z (Z.of_nat (grid_size - 1))) == 1).
    { rewrite Qred_correct. field. lra. }
    unfold fin. apply (beta_pdf_pos alt_cnt 0); [lra | right; lra | now left]. }
  assert (Hq : 0 < qsum raw).
  { pose proof (qsum_ge_nth raw (grid_size - 1) Hn). lra. }
  destruct (normalize_positive_sum raw Hf Hn Hq) as [A [_ [_ D]]].
  split; assumption.
Qed.

(** ** calc_ccf on valid inputs *)



(** ** Integer copy numbers with a single major copy *)

Lemma baseline_scaled (ps : Q) (m1 : array) (n : nat) :
  Forall (fun x => exists b : Q, x = fin b) m1 -> length m1 = n ->
  Forall2 (fun r x => exists a b : Q, r = Fin a /\ x = fin b /\ a == ps * b)
          (add (zeros n) (mul_scalar m1 (Fin ps))) m1.
Proof.
  intros Hm. revert n. induction Hm as [| x t [b ->] Ht IH]; intros n L.
  - destruct n; [constructor | discriminate].
  - destruct n as [| n]; [discriminate |]. cbn in L.
    cbn [zeros repeat mul_scalar map add]. constructor.
    + unfold fin. cbn [fmul fadd]. unfold fin.
      eexists. exists b. split; [reflexivity |]. split; [reflexivity |].
      rewrite !Qred_correct. ring.
    + apply IH. lia.
Qed.

Lemma mixture_scaled (ps : Q) (l c : array) :
  Forall (fun x => exists b : Q, x = fin b) l -> Forall finite c ->
  length l = length c ->
  Forall2 (fun r x => exists a b : Q, r = Fin a /\ x = fin b /\ a == ps * b)
          (add (scalar_mul (Fin ps) l) (scalar_mul (Fin 0) c)) l.
Proof.
  intros Hl. revert c. induction Hl as [| x t [b ->] Ht IH]; intros c Hc L.
  - constructor.
  - destruct Hc as [| y c Hy Hc]; [discriminate |].
    destruct (finite_inv _ Hy) as [q ->].
    cbn [scalar_mul map add]. constructor.
    + unfold fin. cbn [fmul fadd]. unfold fin.
      eexists. exists b. split; [reflexivity |]. split; [reflexivity |].
      rewrite !Qred_correct. ring.
    + apply IH; [exact Hc | cbn in L; lia].
Qed.

Lemma calc_p_clonal_single_copy (local_cn_a1 local_cn_a2 : Q) (k : Z)
    (alt_cnt ref_cnt : nat) (purity : Q) :
  local_cn_a1 == inject_Z k -> local_cn_a2 == 1 ->
  calc_p_clonal local_cn_a1 local_cn_a2 alt_cnt ref_cnt purity = Fin 0.
Proof.
  intros H1 H2. rewrite calc_p_clonal_as_list.
  assert (E1 : shifted_multiplicities local_cn_a1 = []).
  { unfold shifted_multiplicities.
    assert (E : Qeq_bool local_cn_a1 (inject_Z (Qfloor local_cn_a1)) = true).
    { apply Qeq_eq_bool. now rewrite (Qfloor_integer _ _ H1). }
    now rewrite E. }
  assert (E2 : shifted_multiplicities local_cn_a2 = []).
  { unfold shifted_multiplicities.
    assert (E : Qeq_bool local_cn_a2 (inject_Z (Qfloor local_cn_a2)) = true).
    { apply Qeq_eq_bool. now rewrite (Qfloor_integer _ 1 H2). }
    now rewrite E. }
  assert (E3 : integers_from_to 2 (Qfloor (fst (fst (get_clonal_cns local_cn_a2))))
               = []).
  { unfold get_clonal_cns.
    assert (E : Qltb 1 local_cn_a2 = false) by (apply Qltb_ge; lra).
    rewrite E. cbn [fst]. rewrite Qfloor_Z, (Qceiling_integer _ 1 H2).
    reflexivity. }
  now rewrite E1, E2, E3.
Qed.

(** With an integer minor copy number and a major copy number of 1, at a
    purity in (0, 1] on the default grid: [p_clonal] is 0, no truncated
    copy is added, the normalized subclonal branch is the multiplicity-1
    histogram, and it is what [calc_ccf] returns. *)
Lemma calc_ccf_single_copy (local_cn_a1 local_cn_a2 : Q) (k : Z)
    (alt_cnt ref_cnt : nat) (purity : Q) (cp : bool) :
  local_cn_a1 == inject_Z k -> (0 <= k)%Z -> local_cn_a2 == 1 ->
  0 < purity -> purity <= 1 ->
  exists (m1 : array) (ccf_mode : fval) (subc_ccf_hist : array),
    calc_ccf_dist_m1 (local_cn_a1 + local_cn_a2) alt_cnt ref_cnt purity 101 cp
      = Ok m1 /\
    calc_ccf_mode m1 = Ok ccf_mode /\
    calc_subc_ccf_hist local_cn_a1 local_cn_a2 m1
      (calc_p_subclonal ccf_mode (local_cn_a1 + local_cn_a2) purity
                        alt_cnt (alt_cnt + ref_cnt))
      alt_cnt ref_cnt purity 101 = Ok subc_ccf_hist /\
    subc_ccf_hist = m1 /\
    calc_ccf local_cn_a1 local_cn_a2 alt_cnt ref_cnt purity 101 cp
      = Ok subc_ccf_hist.
Proof.
  intros H1 Hk H2 Hp0 Hp1.
  assert (Ha1 : 0 <= local_cn_a1).
  { rewrite H1, <- (Zle_Qle 0). exact Hk. }
  assert (Ht : 1 <= local_cn_a1 + local_cn_a2) by lra.
  assert (Hg : (3 <= 101)%nat) by lia.
  destruct (m1_normalized (local_cn_a1 + local_cn_a2) purity alt_cnt ref_cnt cp
              Ht Hp0 Hp1 101 Hg) as [Lm [Hmf [Hmn [_ [Hmq Hmc]]]]].
  pose proof (calc_ccf_dist_m1_eq (local_cn_a1 + local_cn_a2) alt_cnt ref_cnt
                purity 101 cp) as Em1.
  set (m1 := div_scalar _ _) in *.
  destruct (p_subclonal_pos (local_cn_a1 + local_cn_a2) purity alt_cnt ref_cnt
              cp m1 Ht Hp0 Hp1 Em1) as [mode [ps [Emode [Eps Hps]]]].
  assert (Hps0 : ~ ps == 0) by lra.
  assert (Esubc : calc_subc_ccf_hist local_cn_a1 local_cn_a2 m1 (Fin ps)
                    alt_cnt ref_cnt purity 101 = Ok m1).
  { unfold calc_subc_ccf_hist.
    pose proof (get_clonal_cns_integer local_cn_a1 k H1) as T1.
    pose proof (get_clonal_cns_integer local_cn_a2 1 H2) as T2.
    destruct (get_clonal_cns local_cn_a1) as [[c1 s1] f1].
    destruct (get_clonal_cns local_cn_a2) as [[c2 s2] f2].
    cbn [snd] in T1, T2. rewrite T1, T2.
    assert (E : Qle_bool 1 local_cn_a2 = true) by (apply Qle_bool_iff; lra).
    rewrite E.
    rewrite iadd_same_length by now rewrite mul_scalar_length, zeros_length.
    cbn [bind]. f_equal.
    apply (scaled_normalize ps); [| exact Hps0 | exact Hmq].
    now apply baseline_scaled. }
  exists m1, mode, m1.
  split; [exact Em1 |]. split; [exact Emode |].
  rewrite Eps. split; [exact Esubc |]. split; [reflexivity |].
  unfold calc_ccf. rewrite Em1. cbn [bind]. rewrite Emode. cbn [bind].
  rewrite Eps, Esubc. cbn [bind].
  rewrite (calc_p_clonal_single_copy _ _ k _ _ _ H1 H2).
  f_equal. apply (scaled_normalize ps); [| exact Hps0 | exact Hmq].
  destruct (calc_clonal_ccf_hist_valid alt_cnt 101) as [Hcf _]; [lia |].
  destruct (calc_clonal_ccf_hist_shape alt_cnt 101) as [Lc _].
  apply mixture_scaled; [exact Hmc | exact Hcf | congruence].
Qed.

(** ** C2: the diploid example *)

(** C2. For local copy numbers 1.0 and 1.0, 20 alt and 20 ref reads,
    purity 1.0 and 101 bins: the loop over the multiplicities from 2 to the
    major allele's clonal copy number is empty, both subclonal fractions
    are zero and [p_clonal] is 0; the histogram that [calc_ccf] returns is
    the normalized subclonal branch, which is the multiplicity-1
    histogram. *)
Theorem diploid_example :
  arange 2 (fst (fst (get_clonal_cns 1)) + 1) = [] /\
  snd (get_clonal_cns 1) = 0 /\
  calc_p_clonal 1 1 20 20 1 = Fin 0 /\
  exists (m1 : array) (ccf_mode : fval) (subc_ccf_hist : array),
    calc_ccf_dist_m1 (1 + 1) 20 20 1 101 false = Ok m1 /\
    calc_ccf_mode m1 = Ok ccf_mode /\
    calc_subc_ccf_hist 1 1 m1
      (calc_p_subclonal ccf_mode (1 + 1) 1 20 (20 + 20)) 20 20 1 101
      = Ok subc_ccf_hist /\
    subc_ccf_hist = m1 /\
    calc_ccf 1 1 20 20 1 101 false = Ok subc_ccf_hist.
Proof.
  split; [reflexivity |].
  split; [reflexivity |].
  split; [reflexivity |].
  apply (calc_ccf_single_copy 1 1 1 20 20 1 false);
    [reflexivity | lia | reflexivity | reflexivity | discriminate].
Qed.

(** * Further properties of the program *)

(** ** Grids that the code cannot index *)

(** X1. On an empty grid [calc_ccf] raises [ValueError], whatever the other
    arguments: the multiplicity-1 histogram is empty and [np.argmax] of an
    empty array raises. *)
Theorem calc_ccf_empty_grid (local_cn_a1 local_cn_a2 : Q)
    (alt_cnt ref_cnt : nat) (purity : Q) (cp : bool) :
  calc_ccf local_cn_a1 local_cn_a2 alt_cnt ref_cnt purity 0 cp
  = Raise ValueError.
Proof.
  unfold calc_ccf. rewrite calc_ccf_dist_m1_eq.
  destruct cp; reflexivity.
Qed.









(** ** The decomposition of a copy number *)

(** X4. [get_clonal_cns] loses nothing: a copy number above 1 is its
    clonal copy number plus the subclonal fraction and lies between the
    clonal and the subclonal copy number; any other copy number is its
    clonal copy number minus the fraction and lies between the subclonal
    and the clonal copy number. The fraction is below 1, and it is zero
    exactly when the two copy numbers coincide. *)
Theorem get_clonal_cns_reconstruct (cn clonal_cn subclonal_cn frac : Q) :
  get_clonal_cns cn = (clonal_cn, subclonal_cn, frac) ->
  (1 < cn -> cn == clonal_cn + frac /\ clonal_cn <= cn <= subclonal_cn) /\
  (cn <= 1 -> cn == clonal_cn - frac /\ subclonal_cn <= cn <= clonal_cn) /\
  0 <= frac < 1 /\
  (frac == 0 <-> clonal_cn == subclonal_cn).
Proof.
  pose proof (Qfloor_le cn) as Hfl.
  pose proof (Qlt_floor cn) as Hlf.
  pose proof (Qle_ceiling cn) as Hlc.
  pose proof (Qceiling_lt cn) as Hcl.
  rewrite inject_Z_plus in Hlf.
  unfold Z.sub in Hcl. rewrite inject_Z_plus, inject_Z_opp in Hcl.
  change (inject_Z 1) with 1 in *.
  assert (Hcases : (inject_Z (Qceiling cn) == inject_Z (Qfloor cn)
                    /\ cn == inject_Z (Qfloor cn))
                   \/ (inject_Z (Qceiling cn) == inject_Z (Qfloor cn) + 1
                       /\ inject_Z (Qfloor cn) < cn)).
  { destruct (Qceiling_floor_cases cn) as [[E1 E2] | [E1 E2]].
    - left. rewrite E1. split; [reflexivity | exact E2].
    - right. rewrite E1, inject_Z_plus. change (inject_Z 1) with 1.
      split; [reflexivity | exact E2]. }
  unfold get_clonal_cns. destruct (Qltb 1 cn) eqn:Hgt.
  - apply Qltb_lt in Hgt. intros E. apply pair_equal_spec in E. destruct E as [E1 <-].
    apply pair_equal_spec in E1. destruct E1 as [<- <-]. rewrite Qred_correct.
    repeat split; try lra; intros; destruct Hcases as [[? ?] | [? ?]]; lra.
  - apply Qltb_ge in Hgt. intros E. apply pair_equal_spec in E. destruct E as [E1 <-].
    apply pair_equal_spec in E1. destruct E1 as [<- <-]. rewrite Qred_correct.
    repeat split; try lra; intros; destruct Hcases as [[? ?] | [? ?]]; lra.
Qed.

Lemma get_clonal_cns_reconstruct_witness :
  (1 < 5 # 2 -> 5 # 2 == 2 + (1 # 2) /\ 2 <= 5 # 2 <= 3) /\
  (5 # 2 <= 1 -> 5 # 2 == 2 - (1 # 2) /\ 3 <= 5 # 2 <= 2) /\
  0 <= 1 # 2 < 1 /\
  (1 # 2 == 0 <-> 2 == 3).
Proof.
  apply (get_clonal_cns_reconstruct (5 # 2) 2 3 (1 # 2)). reflexivity.
Defined.

(** ** What calc_ccf returns *)

Lemma calc_ccf_ok_shape (local_cn_a1 local_cn_a2 : Q)
    (alt_cnt ref_cnt : nat) (purity : Q) (grid_size : nat) (cp : bool)
    (h : array) :
  calc_ccf local_cn_a1 local_cn_a2 alt_cnt ref_cnt purity grid_size cp = Ok h ->
  length h = grid_size /\ (1 <= grid_size)%nat /\ Forall not_negative h.
Proof.
  unfold calc_ccf.
  destruct (calc_ccf_dist_m1 _ _ _ _ _ _) as [m1 |] eqn:Em1;
    cbn [bind]; [| discriminate].
  destruct (calc_ccf_mode m1) as [ccf_mode |] eqn:Emode;
    cbn [bind]; [| discriminate].
  destruct (calc_subc_ccf_hist _ _ _ _ _ _ _ _) as [subc |] eqn:Esubc;
    cbn [bind]; [| discriminate].
  intros [= <-].
  destruct (calc_ccf_dist_m1_shape _ _ _ _ _ _ _ Em1) as [Lm1 Nm1].
  destruct (calc_subc_ccf_hist_shape _ _ _ _ _ _ _ _ _ Esubc) as [Ls Ns].
  destruct (calc_clonal_ccf_hist_shape alt_cnt grid_size) as [Lc Nc].
  split; [| split].
  - rewrite div_scalar_length, add_length; rewrite !scalar_mul_length; congruence.
  - unfold calc_ccf_mode in Emode.
    destruct (argmax m1) as [k |] eqn:Ek; [| discriminate].
    apply argmax_ok in Ek. destruct m1; [congruence | cbn in Lm1; lia].
  - apply normalize_not_negative, add_not_negative;
      apply scalar_mul_not_negative; auto.
    + apply binom_pmf_not_negative.
    + apply Ns; [exact Nm1 | apply binom_pmf_not_negative].
    + apply calc_p_clonal_not_negative.
Qed.

(** X5. Whatever the arguments, a histogram returned by [calc_ccf] has
    [grid_size] bins, at least one, and no bin is a negative number (a bin
    is a non-negative real, or [nan] or [inf]). *)
Theorem calc_ccf_never_negative (local_cn_a1 local_cn_a2 : Q)
    (alt_cnt ref_cnt : nat) (purity : Q) (grid_size : nat) (cp : bool)
    (h : array) :
  calc_ccf local_cn_a1 local_cn_a2 alt_cnt ref_cnt purity grid_size cp = Ok h ->
  length h = grid_size /\ (1 <= grid_size)%nat /\ Forall not_negative h.
Proof.
  apply calc_ccf_ok_shape.
Qed.

Lemma calc_ccf_never_negative_witness :
  length [Fin 0; Fin (49 # 674); Fin (72 # 337); Fin (225 # 674);
          Fin (128 # 337)] = 5%nat /\
  (1 <= 5)%nat /\
  Forall not_negative [Fin 0; Fin (49 # 674); Fin (72 # 337);
                       Fin (225 # 674); Fin (128 # 337)].
Proof.
  apply (calc_ccf_never_negative 1 1 2 2 1 5 false
           [Fin 0; Fin (49 # 674); Fin (72 # 337); Fin (225 # 674);
            Fin (128 # 337)]).
  vm_compute. reflexivity.
Defined.





(** ** The mapping mode *)

Lemma calc_ccf_dist_m1_purity_one (total_cn : Q) (alt_cnt ref_cnt : nat)
    (purity : Q) (grid_size : nat) :
  purity == 1 ->
  calc_ccf_dist_m1 total_cn alt_cnt ref_cnt purity grid_size true
  = calc_ccf_dist_m1 total_cn alt_cnt ref_cnt purity grid_size false.
Proof.
  intros Hp. unfold calc_ccf_dist_m1, cp_dist_from_params, ccf_dist_from_params.
  change (Qeq_bool 1 0) with false.
  now rewrite cp_dist_body_purity_one.
Qed.

(** X8. At purity 1 the flag [cp] does not change what [calc_ccf] returns
    or raises, for all copy numbers, read counts and grid sizes. *)
Theorem calc_ccf_cp_flag_at_purity_one (local_cn_a1 local_cn_a2 : Q)
    (alt_cnt ref_cnt : nat) (purity : Q) (grid_size : nat) :
  purity == 1 ->
  calc_ccf local_cn_a1 local_cn_a2 alt_cnt ref_cnt purity grid_size true
  = calc_ccf local_cn_a1 local_cn_a2 alt_cnt ref_cnt purity grid_size false.
Proof.
  intros Hp. unfold calc_ccf.
  now rewrite calc_ccf_dist_m1_purity_one.
Qed.

Lemma calc_ccf_cp_flag_at_purity_one_witness :
  calc_ccf 1 (5 # 2) 3 4 1 101 true = calc_ccf 1 (5 # 2) 3 4 1 101 false.
Proof.
  apply (calc_ccf_cp_flag_at_purity_one 1 (5 # 2) 3 4 1 101). reflexivity.
Defined.

(** ** The pieces of update_ccf_hist *)



(** X10. When [update_ccf_hist] returns, the histogram it returns has the
    length of the running histogram it was given, and if neither that
    histogram nor the multiplicity-1 histogram holds a negative number,
    neither does the result. *)
Theorem update_ccf_hist_keeps_shape (hist : array) (f : Q) (m1 : array)
    (purity total_cn : Q) (alt_cnt total_cov : nat) (c : array) :
  update_ccf_hist hist f m1 purity total_cn alt_cnt total_cov = Ok c ->
  length c = length hist /\
  (Forall not_negative hist -> Forall not_negative m1 -> Forall not_negative c).
Proof.
  apply update_ccf_hist_shape.
Qed.

Lemma update_ccf_hist_keeps_shape_witness :
  length [Fin (10397 # 80000); Fin (9999 # 40000); Fin (10397 # 80000)] = length (zeros 3) /\
  (Forall not_negative (zeros 3) ->
   Forall not_negative [Fin (1 # 4); Fin (1 # 2); Fin (1 # 4)] ->
   Forall not_negative [Fin (10397 # 80000); Fin (9999 # 40000); Fin (10397 # 80000)]).
Proof.
  apply (update_ccf_hist_keeps_shape (zeros 3) (99 # 100)
           [Fin (1 # 4); Fin (1 # 2); Fin (1 # 4)] 1 2 1 2).
  vm_compute. reflexivity.
Defined.

(** ** The distribution builders *)

Lemma normalized_when_finite (raw : array) :
  raw <> [] -> Forall finite (div_scalar raw (py_sum raw)) ->
  py_sum (div_scalar raw (py_sum raw)) = Fin 1.
Proof.
  intros Hne Hf.
  destruct (normalize_finite_inv raw Hne Hf) as [Hrf [s [Es Hs]]].
  rewrite Es. now apply normalize_sums_to_one.
Qed.

Lemma dist_body_normalized (dom : array) (a b : nat) :
  dom <> [] ->
  let raw := map (beta_pdf a b) dom in
  Forall finite (div_scalar raw (py_sum raw)) ->
  py_sum (div_scalar raw (py_sum raw)) = Fin 1.
Proof.
  intros Hne raw. apply normalized_when_finite.
  unfold raw. destruct dom; [congruence | discriminate].
Qed.

(** X11. For a non-zero multiplicity both distribution builders return an
    array (not a pair) of [grid_size] bins, none of which is a negative
    number; when the grid is not empty and every bin is a real number, the
    bins sum to 1. *)
Theorem dist_from_params_nonzero_mult (mult total_cn : Q)
    (alt_cnt ref_cnt : nat) (purity : Q) (grid_size : nat) :
  ~ mult == 0 ->
  exists h_ccf h_cp : array,
    ccf_dist_from_params mult total_cn alt_cnt ref_cnt purity grid_size
      = Ok (Hist h_ccf) /\
    cp_dist_from_params mult total_cn alt_cnt ref_cnt purity grid_size
      = Ok (Hist h_cp) /\
    length h_ccf = grid_size /\ length h_cp = grid_size /\
    Forall not_negative h_ccf /\ Forall not_negative h_cp /\
    ((1 <= grid_size)%nat -> Forall finite h_ccf -> py_sum h_ccf = Fin 1) /\
    ((1 <= grid_size)%nat -> Forall finite h_cp -> py_sum h_cp = Fin 1).
Proof.
  intros Hm.
  assert (E : Qeq_bool mult 0 = false).
  { apply not_true_iff_false. now rewrite Qeq_bool_iff. }
  unfold ccf_dist_from_params, cp_dist_from_params. rewrite E.
  eexists. eexists. split; [reflexivity |]. split; [reflexivity |].
  unfold ccf_dist_body, cp_dist_body.
  set (dom1 := div_scalar (mul_scalar (mul_scalar (linspace01 grid_size) (Fin mult))
                                      (Fin purity))
                          (af_denominator total_cn purity)).
  set (dom2 := div_scalar (mul_scalar (linspace01 grid_size) (Fin mult))
                          (af_denominator total_cn purity)).
  assert (L1 : length dom1 = grid_size).
  { unfold dom1.
    now rewrite div_scalar_length, !mul_scalar_length, linspace01_length. }
  assert (L2 : length dom2 = grid_size).
  { unfold dom2.
    now rewrite div_scalar_length, mul_scalar_length, linspace01_length. }
  destruct (dist_body_shape dom1 (alt_cnt + 1) (ref_cnt + 1)) as [A1 B1].
  destruct (dist_body_shape dom2 (alt_cnt + 1) (ref_cnt + 1)) as [A2 B2].
  split; [congruence |]. split; [congruence |].
  split; [exact B1 |]. split; [exact B2 |].
  split; intros Hg; apply dist_body_normalized;
    intros ->; cbn in *; lia.
Qed.

Lemma dist_from_params_nonzero_mult_witness :
  exists h_ccf h_cp : array,
    ccf_dist_from_params 2 3 4 5 (1 # 2) 11 = Ok (Hist h_ccf) /\
    cp_dist_from_params 2 3 4 5 (1 # 2) 11 = Ok (Hist h_cp) /\
    length h_ccf = 11%nat /\ length h_cp = 11%nat /\
    Forall not_negative h_ccf /\ Forall not_negative h_cp /\
    ((1 <= 11)%nat -> Forall finite h_ccf -> py_sum h_ccf = Fin 1) /\
    ((1 <= 11)%nat -> Forall finite h_cp -> py_sum h_cp = Fin 1).
Proof.
  apply (dist_from_params_nonzero_mult 2 3 4 5 (1 # 2) 11). discriminate.
Defined.



(** ** No copy of the major allele *)

Lemma normalize_zeros (n : nat) :
  div_scalar (zeros n) (py_sum (zeros n)) = repeat NaN n.
Proof.
  assert (Hs : py_sum (zeros n) = Fin 0).
  { unfold py_sum, zeros. induction n as [| n IH]; [reflexivity | exact IH]. }
  rewrite Hs. clear Hs. unfold zeros.
  induction n as [| n IH]; [reflexivity |].
  cbn [repeat div_scalar map]. f_equal. exact IH.
Qed.

Lemma add_nan_r (p : fval) (b : array) (n : nat) :
  length b = n ->
  add (scalar_mul p (repeat NaN n)) b = repeat NaN n.
Proof.
  revert b. induction n as [| n IH]; intros [| y b] L; cbn in L; try lia;
    [reflexivity |].
  cbn [repeat scalar_mul map add]. f_equal.
  - now destruct p.
  - apply IH. lia.
Qed.

(** X13. With an integer minor copy number and a major copy number of 0,
    on a grid of at least one bin, [calc_ccf] raises nothing and returns
    [grid_size] bins that are all [nan], at every purity and in both
    mapping modes: the subclonal branch stays all zeros (line 52 is false
    and no truncated copy is added) and line 60 divides it by its zero
    sum. *)
Theorem calc_ccf_no_major_copy (local_cn_a1 local_cn_a2 : Q) (k : Z)
    (alt_cnt ref_cnt : nat) (purity : Q) (grid_size : nat) (cp : bool) :
  local_cn_a1 == inject_Z k -> local_cn_a2 == 0 -> (1 <= grid_size)%nat ->
  calc_ccf local_cn_a1 local_cn_a2 alt_cnt ref_cnt purity grid_size cp
  = Ok (repeat NaN grid_size).
Proof.
  intros H1 H2 Hg. unfold calc_ccf.
  destruct (calc_ccf_dist_m1_total (local_cn_a1 + local_cn_a2) alt_cnt ref_cnt
              purity grid_size cp) as [m1 Em1].
  rewrite Em1. cbn [bind].
  destruct (calc_ccf_dist_m1_shape _ _ _ _ _ _ _ Em1) as [Lm1 _].
  assert (Hne : m1 <> []) by (destruct m1; [cbn in Lm1; lia | discriminate]).
  destruct (calc_ccf_mode_fin m1 Hne) as [mode Emode].
  rewrite Emode. cbn [bind].
  set (p_subclonal := calc_p_subclonal _ _ _ _ _).
  assert (E : calc_subc_ccf_hist local_cn_a1 local_cn_a2 m1 p_subclonal
                alt_cnt ref_cnt purity grid_size = Ok (repeat NaN grid_size)).
  { unfold calc_subc_ccf_hist.
    pose proof (get_clonal_cns_integer local_cn_a1 k H1) as T1.
    pose proof (get_clonal_cns_integer local_cn_a2 0 H2) as T2.
    destruct (get_clonal_cns local_cn_a1) as [[c1 s1] f1].
    destruct (get_clonal_cns local_cn_a2) as [[c2 s2] f2].
    cbn [snd] in T1, T2.
    assert (E : Qle_bool 1 local_cn_a2 = false).
    { apply not_true_iff_false. rewrite Qle_bool_iff. lra. }
    rewrite E, T1, T2. cbn [bind]. f_equal. apply normalize_zeros. }
  rewrite E. cbn [bind]. f_equal.
  destruct (calc_clonal_ccf_hist_shape alt_cnt grid_size) as [Lc _].
  rewrite add_nan_r by now rewrite scalar_mul_length.
  apply div_scalar_nan.
Qed.

Lemma calc_ccf_no_major_copy_witness :
  calc_ccf 0 0 12 30 (1 # 2) 101 false = Ok (repeat NaN 101).
Proof.
  apply (calc_ccf_no_major_copy 0 0 0 12 30 (1 # 2) 101 false);
    [reflexivity | reflexivity | lia].
Defined.

(** ** The clonal likelihood *)

(** X14. For non-negative local copy numbers with a major copy number of
    at least 1 and a purity in (0, 1], every multiplicity that [calc_ccf]
    weighs maps to an allele fraction in the unit interval, so [p_clonal]
    is a non-negative real and never [nan]. *)
Theorem calc_p_clonal_valid_input (local_cn_a1 local_cn_a2 : Q)
    (alt_cnt ref_cnt : nat) (purity : Q) :
  0 <= local_cn_a1 -> 1 <= local_cn_a2 -> 0 < purity -> purity <= 1 ->
  exists pc : Q,
    calc_p_clonal local_cn_a1 local_cn_a2 alt_cnt ref_cnt purity = Fin pc /\
    0 <= pc.
Proof.
  apply calc_p_clonal_finite.
Qed.

Lemma calc_p_clonal_valid_input_witness :
  exists pc : Q, calc_p_clonal 1 (5 # 2) 2 0 1 = Fin pc /\ 0 <= pc.
Proof.
  apply (calc_p_clonal_valid_input 1 (5 # 2) 2 0 1);
    [discriminate | discriminate | reflexivity | discriminate].
Defined.

(** ** The clonal branch *)

Lemma Qpower_nat_succ (x : Q) (n : nat) :
  x ^ Z.of_nat (S n) == x * x ^ Z.of_nat n.
Proof.
  rewrite Nat2Z.inj_succ. unfold Z.succ.
  rewrite Z.add_comm, Qpower_plus' by lia.
  now rewrite Qpower_1_r.
Qed.

Lemma Qpower_nat_le (x y : Q) (n : nat) :
  0 <= x -> x <= y -> x ^ Z.of_nat n <= y ^ Z.of_nat n.
Proof.
  intros Hx Hxy. induction n as [| n IH].
  - cbn. lra.
  - rewrite !Qpower_nat_succ.
    assert (H0 : 0 <= x ^ Z.of_nat n) by now apply Qpower_0_le.
    apply Qle_trans with (y * x ^ Z.of_nat n).
    + apply Qmult_le_compat_r; assumption.
    + rewrite !(Qmult_comm y). apply Qmult_le_compat_r; [exact IH | lra].
Qed.

Lemma clonal_raw_nth (alt_cnt grid_size k : nat) :
  (2 <= grid_size)%nat -> (k < grid_size)%nat ->
  exists x : Q,
    x == inject_Z (Z.of_nat k) / inject_Z (Z.of_nat (grid_size - 1)) /\
    nth k (map (beta_pdf (alt_cnt + 1) 1) (linspace01 grid_size)) NaN
    = fin (beta_coef alt_cnt 0 * x ^ Z.of_nat alt_cnt * (1 - x) ^ Z.of_nat 0).
Proof.
  intros Hg Hk.
  rewrite nth_map_nan by now rewrite Nat.add_1_r.
  rewrite linspace01_nth by lia.
  eexists. split; [apply Qred_correct |].
  unfold fin at 1. apply (beta_pdf_unit alt_cnt 0).
  rewrite Qred_correct.
  assert (Hn : 0 < inject_Z (Z.of_nat (grid_size - 1))).
  { rewrite <- (Zlt_Qlt 0). lia. }
  assert (Hk0 : 0 <= inject_Z (Z.of_nat k)).
  { rewrite <- (Zle_Qle 0). lia. }
  assert (Hkn : inject_Z (Z.of_nat k) <= inject_Z (Z.of_nat (grid_size - 1))).
  { rewrite <- Zle_Qle. lia. }
  split.
  - apply Qle_shift_div_l; [exact Hn | lra].
  - apply Qle_shift_div_r; [exact Hn | lra].
Qed.

(** X15. On a grid of at least two bins the clonal branch (lines 62-64,
    the normalized density of Beta(alt_cnt + 1, 1)) is a list of reals
    that sum to 1 and never decrease from one bin to the next: its largest
    bin is the last one, CCF = 1. *)
Theorem clonal_branch_nondecreasing (alt_cnt grid_size i j : nat) :
  (2 <= grid_size)%nat -> (i <= j)%nat -> (j < grid_size)%nat ->
  Forall finite (calc_clonal_ccf_hist alt_cnt grid_size) /\
  py_sum (calc_clonal_ccf_hist alt_cnt grid_size) = Fin 1 /\
  value (nth i (calc_clonal_ccf_hist alt_cnt grid_size) NaN)
  <= value (nth j (calc_clonal_ccf_hist alt_cnt grid_size) NaN).
Proof.
  intros Hg Hij Hj.
  destruct (calc_clonal_ccf_hist_valid alt_cnt grid_size Hg) as [Hf _].
  split; [exact Hf |].
  unfold calc_clonal_ccf_hist in *.
  set (raw := map (beta_pdf (alt_cnt + 1) 1) (linspace01 grid_size)) in *.
  assert (Hne : raw <> []).
  { unfold raw. destruct grid_size as [| [| n]]; [lia | lia | discriminate]. }
  destruct (normalize_finite_inv raw Hne Hf) as [Hrf [s [Es Hs]]].
  split; [rewrite Es; now apply normalize_sums_to_one |].
  rewrite Es, !div_scalar_nth.
  destruct (clonal_raw_nth alt_cnt grid_size i Hg) as [xi [Hxi Ei]]; [lia |].
  destruct (clonal_raw_nth alt_cnt grid_size j Hg Hj) as [xj [Hxj Ej]].
  fold raw in Ei, Ej. rewrite Ei, Ej. unfold fin.
  rewrite !fdiv_fin by exact Hs. rewrite !value_fin, !Qred_correct.
  assert (Hn : 0 < inject_Z (Z.of_nat (grid_size - 1))).
  { rewrite <- (Zlt_Qlt 0). lia. }
  assert (Hi0 : 0 <= xi).
  { rewrite Hxi. apply Qle_shift_div_l; [exact Hn |].
    assert (0 <= inject_Z (Z.of_nat i)) by (rewrite <- (Zle_Qle 0); lia). lra. }
  assert (Hxij : xi <= xj).
  { rewrite Hxi, Hxj. apply Qmult_le_compat_r.
    - rewrite <- Zle_Qle. lia.
    - apply Qlt_le_weak, Qinv_lt_0_compat. exact Hn. }
  assert (Hs0 : 0 < s).
  { assert (Hrn : Forall not_negative raw).
    { unfold raw. rewrite Forall_map. apply Forall_forall.
      intros x _. apply beta_pdf_not_negative. }
    destruct (py_sum_fin raw Hrf) as [s' [Es' Hq]].
    rewrite Es in Es'. injection Es' as <-.
    pose proof (qsum_nonneg raw Hrn). lra. }
  pose proof (Qpower_nat_le xi xj alt_cnt Hi0 Hxij) as Hpow.
  pose proof (beta_coef_pos alt_cnt 0) as Hc.
  change ((1 - xi) ^ Z.of_nat 0) with 1. change ((1 - xj) ^ Z.of_nat 0) with 1.
  apply Qmult_le_compat_r; [| apply Qlt_le_weak, Qinv_lt_0_compat; exact Hs0].
  rewrite !Qmult_1_r, !(Qmult_comm (beta_coef alt_cnt 0)).
  apply Qmult_le_compat_r; [exact Hpow | lra].
Qed.

Lemma clonal_branch_nondecreasing_witness :
  Forall finite (calc_clonal_ccf_hist 20 101) /\
  py_sum (calc_clonal_ccf_hist 20 101) = Fin 1 /\
  value (nth 40 (calc_clonal_ccf_hist 20 101) NaN)
  <= value (nth 100 (calc_clonal_ccf_hist 20 101) NaN).
Proof.
  apply (clonal_branch_nondecreasing 20 101 40 100); lia.
Defined.
